(** * Rule 2768887: VBRK/VBRP draft-filter check (src/app/app.py)

    A shallow embedding of the scanner of [app.py] and the proofs of its
    specification.

    Python [str] values are modelled as lists of characters ([list ascii]);
    the character tables ([\s], [\w], [upper], case-insensitive comparison)
    are those of Python restricted to ASCII source text (code points below
    128).  Line numbers are Python integers, modelled in [Z]; offsets into a
    text are [nat].

    The regular expressions of the source are written as terms of a small
    pattern language that has the constructs they use, and Python's [re]
    engine is embedded as a backtracking matcher in continuation-passing
    style: alternatives are tried in Python's priority order (greedy before
    shorter, lazy before longer, left alternative first) and the first
    success wins.  The matcher is then related to a relational reading of
    patterns ([matches]), sound and complete, on which the general
    properties are proved. *)

From Stdlib Require Import List Bool Arith ZArith Lia Ascii String Sorted.
Import ListNotations.

Set Implicit Arguments.

(** ** Strings and characters *)

Definition str := list ascii.

Definition lit (s : string) : str := list_ascii_of_string s.

Definition nl : ascii := "010"%char.
Definition dquote : ascii := "034"%char.
Definition backslash : ascii := "092"%char.

Definition between (lo hi : nat) (c : ascii) : bool :=
  (lo <=? nat_of_ascii c) && (nat_of_ascii c <=? hi).

(** [str.isspace] on ASCII: TAB..CR, FS..US and the blank. *)
Definition is_space (c : ascii) : bool := between 9 13 c || between 28 32 c.

Definition is_upper (c : ascii) : bool := between 65 90 c.
Definition is_lower (c : ascii) : bool := between 97 122 c.
Definition is_digit (c : ascii) : bool := between 48 57 c.

(** [\w] on ASCII: letters, digits and the underscore. *)
Definition is_word (c : ascii) : bool :=
  is_upper c || is_lower c || is_digit c || (c =? "_")%char.

Definition upper_char (c : ascii) : ascii :=
  if is_lower c then ascii_of_nat (nat_of_ascii c - 32) else c.

Definition lower_char (c : ascii) : ascii :=
  if is_upper c then ascii_of_nat (nat_of_ascii c + 32) else c.

(** [s.upper()] *)
Definition upper (s : str) : str := map upper_char s.

(** Comparison of two characters under [re.IGNORECASE]. *)
Definition ci_eqb (a b : ascii) : bool := (lower_char a =? lower_char b)%char.

Fixpoint str_eqb (a b : str) : bool :=
  match a, b with
  | [], [] => true
  | x :: a', y :: b' => (x =? y)%char && str_eqb a' b'
  | _, _ => false
  end.

(** [t[a:b]] for [0 <= a], [0 <= b]. *)
Definition slice (t : str) (a b : nat) : str := firstn (b - a) (skipn a t).

(** [s.count("\n")] *)
Definition count_nl (s : str) : nat :=
  List.length (filter (fun c => (c =? nl)%char) s).

(** [text.find("\n", from)]: index of the first newline at or after [from]. *)
Fixpoint find_nl_from (t : str) (i from : nat) : option nat :=
  match t with
  | [] => None
  | c :: t' =>
      if (from <=? i) && (c =? nl)%char then Some i
      else find_nl_from t' (S i) from
  end.

Definition find_nl (t : str) (from : nat) : option nat := find_nl_from t 0 from.

(** [text.rfind("\n", 0, to)]: index of the last newline before [to]. *)
Fixpoint rfind_nl_from (t : str) (i to : nat) (last : option nat) : option nat :=
  match t with
  | [] => last
  | c :: t' =>
      if i <? to
      then rfind_nl_from t' (S i) to (if (c =? nl)%char then Some i else last)
      else last
  end.

Definition rfind_nl (t : str) (to : nat) : option nat := rfind_nl_from t 0 to None.

(** [s.replace("\n", "\\n")] *)
Definition escape_nl (s : str) : str :=
  flat_map (fun c => if (c =? nl)%char then lit "\n" else [c]) s.

(** [s.split(",")] *)
Fixpoint split_on (sep : ascii) (s : str) : list str :=
  match s with
  | [] => [[]]
  | c :: s' =>
      if (c =? sep)%char then [] :: split_on sep s'
      else match split_on sep s' with
           | [] => [[c]]
           | p :: ps => (c :: p) :: ps
           end
  end.

Fixpoint lstrip (s : str) : str :=
  match s with
  | c :: s' => if is_space c then lstrip s' else s
  | [] => []
  end.

Definition rstrip (s : str) : str := rev (lstrip (rev s)).

(** [s.strip()] *)
Definition strip (s : str) : str := rstrip (lstrip s).

(** [sep.join(parts)] *)
Fixpoint join (sep : str) (parts : list str) : str :=
  match parts with
  | [] => []
  | [p] => p
  | p :: ps => p ++ sep ++ join sep ps
  end.

(** ** Patterns *)

Inductive cset : Type :=
| Dot                       (* [.] under re.DOTALL *)
| Space                     (* [\s] *)
| Word                      (* [\w] *)
| Chars (l : list ascii)    (* the listed characters *)
| Union (a b : cset).

Fixpoint in_cset (s : cset) (c : ascii) : bool :=
  match s with
  | Dot => true
  | Space => is_space c
  | Word => is_word c
  | Chars l => existsb (ci_eqb c) l
  | Union a b => in_cset a c || in_cset b c
  end.

Inductive regex : Type :=
| Eps
| Chr (c : ascii)                          (* a literal, compared ignoring case *)
| Cls (s : cset)
| Seq (r1 r2 : regex)
| Alt (r1 r2 : regex)                      (* r1|r2 *)
| Rep (greedy : bool) (min : nat) (s : cset)  (* s*, s+, s*?, s+? *)
| Opt (r : regex)                          (* (?:r)? *)
| Grp (g : string) (r : regex)             (* a capturing group *)
| Look (r : regex)                         (* (?=r) *)
| Bnd                                      (* \b *)
| Eos.                                     (* $ without re.MULTILINE *)

(** A run of literal characters; also what [re.escape] of a string denotes. *)
Fixpoint Lit (s : str) : regex :=
  match s with
  | [] => Eps
  | c :: s' => Seq (Chr c) (Lit s')
  end.

Fixpoint seqs (rs : list regex) : regex :=
  match rs with
  | [] => Eps
  | [r] => r
  | r :: rs' => Seq r (seqs rs')
  end.

Fixpoint alts (r : regex) (rs : list regex) : regex :=
  match rs with
  | [] => r
  | r' :: rs' => Alt r (alts r' rs')
  end.

(** ** The matcher *)

Record cursor : Type := Cursor { pos : nat; prev : option ascii; rest : str }.

Definition caps := list (string * (nat * nat)).

Definition cont := cursor -> caps -> option (cursor * caps).

Definition advance (cur : cursor) (c : ascii) (rs : str) : cursor :=
  Cursor (S (pos cur)) (Some c) rs.

Definition word_opt (c : option ascii) : bool :=
  match c with Some x => is_word x | None => false end.

Definition at_boundary (cur : cursor) : bool :=
  xorb (word_opt (prev cur)) (word_opt (hd_error (rest cur))).

Definition at_eos (cur : cursor) : bool :=
  match rest cur with
  | [] => true
  | [c] => (c =? nl)%char
  | _ => false
  end.

Definition rep_stop (min : nat) (cur : cursor) (cp : caps) (k : cont)
  : option (cursor * caps) :=
  match min with 0 => k cur cp | S _ => None end.

Fixpoint rep_greedy (s : cset) (min : nat) (p : nat) (pv : option ascii)
    (rs : str) (cp : caps) (k : cont) : option (cursor * caps) :=
  match rs with
  | c :: rs' =>
      if in_cset s c then
        match rep_greedy s (Nat.pred min) (S p) (Some c) rs' cp k with
        | Some x => Some x
        | None => rep_stop min (Cursor p pv rs) cp k
        end
      else rep_stop min (Cursor p pv rs) cp k
  | [] => rep_stop min (Cursor p pv rs) cp k
  end.

Fixpoint rep_lazy (s : cset) (min : nat) (p : nat) (pv : option ascii)
    (rs : str) (cp : caps) (k : cont) : option (cursor * caps) :=
  match rep_stop min (Cursor p pv rs) cp k with
  | Some x => Some x
  | None =>
      match rs with
      | c :: rs' =>
          if in_cset s c then rep_lazy s (Nat.pred min) (S p) (Some c) rs' cp k
          else None
      | [] => None
      end
  end.

Fixpoint rmatch (r : regex) (cur : cursor) (cp : caps) (k : cont)
  : option (cursor * caps) :=
  match r with
  | Eps => k cur cp
  | Chr a =>
      match rest cur with
      | c :: rs => if ci_eqb a c then k (advance cur c rs) cp else None
      | [] => None
      end
  | Cls s =>
      match rest cur with
      | c :: rs => if in_cset s c then k (advance cur c rs) cp else None
      | [] => None
      end
  | Seq r1 r2 => rmatch r1 cur cp (fun cur' cp' => rmatch r2 cur' cp' k)
  | Alt r1 r2 =>
      match rmatch r1 cur cp k with
      | Some x => Some x
      | None => rmatch r2 cur cp k
      end
  | Rep true min s => rep_greedy s min (pos cur) (prev cur) (rest cur) cp k
  | Rep false min s => rep_lazy s min (pos cur) (prev cur) (rest cur) cp k
  | Opt r1 =>
      match rmatch r1 cur cp k with
      | Some x => Some x
      | None => k cur cp
      end
  | Grp g r1 =>
      rmatch r1 cur cp (fun cur' cp' => k cur' ((g, (pos cur, pos cur')) :: cp'))
  | Look r1 =>
      match rmatch r1 cur cp (fun cur' cp' => Some (cur', cp')) with
      | Some (_, cp') => k cur cp'
      | None => None
      end
  | Bnd => if at_boundary cur then k cur cp else None
  | Eos => if at_eos cur then k cur cp else None
  end.

(** A match object: [m.span(0)] and the spans of the groups that took part. *)
Record mobj : Type := Mobj { m_start : nat; m_end : nat; m_caps : caps }.

Definition accept : cont := fun cur cp => Some (cur, cp).

Definition match_at (r : regex) (cur : cursor) : option mobj :=
  match rmatch r cur [] accept with
  | Some (cur', cp) => Some (Mobj (pos cur) (pos cur') cp)
  | None => None
  end.

Fixpoint lookup_cap (g : string) (cp : caps) : option (nat * nat) :=
  match cp with
  | [] => None
  | (g', sp) :: cp' => if String.eqb g g' then Some sp else lookup_cap g cp'
  end.

(** [m.group(g)]: [None] when the group did not take part in the match. *)
Definition group (txt : str) (m : mobj) (g : string) : option str :=
  match lookup_cap g (m_caps m) with
  | Some (a, b) => Some (slice txt a b)
  | None => None
  end.

(** [pattern.match(txt)] *)
Definition re_match (r : regex) (txt : str) : option mobj :=
  match_at r (Cursor 0 None txt).

Fixpoint search_from (r : regex) (p : nat) (pv : option ascii) (rs : str)
  : option mobj :=
  match match_at r (Cursor p pv rs) with
  | Some m => Some m
  | None =>
      match rs with
      | c :: rs' => search_from r (S p) (Some c) rs'
      | [] => None
      end
  end.

(** [re.search(pattern, txt)] *)
Definition re_search (r : regex) (txt : str) : option mobj :=
  search_from r 0 None txt.

(** [pattern.finditer(txt)]: after a match the scan resumes at its end;
    [skip] counts the characters still covered by the last match.  The
    patterns that [app.py] iterates over never match the empty string
    (lemma [iterated_patterns_nonempty]), so every match moves the scan
    forward. *)
Fixpoint finditer_from (r : regex) (skip : nat) (p : nat) (pv : option ascii)
    (rs : str) : list mobj :=
  match skip with
  | S n =>
      match rs with
      | c :: rs' => finditer_from r n (S p) (Some c) rs'
      | [] => []
      end
  | 0 =>
      match match_at r (Cursor p pv rs) with
      | Some m =>
          m :: match rs with
               | c :: rs' => finditer_from r (m_end m - p - 1) (S p) (Some c) rs'
               | [] => []
               end
      | None =>
          match rs with
          | c :: rs' => finditer_from r 0 (S p) (Some c) rs'
          | [] => []
          end
      end
  end.

Definition finditer (r : regex) (txt : str) : list mobj :=
  finditer_from r 0 0 None txt.

Fixpoint pieces (txt : str) (from : nat) (ms : list mobj) : list str :=
  match ms with
  | [] => [slice txt from (List.length txt)]
  | m :: ms' => slice txt from (m_start m) :: pieces txt (m_end m) ms'
  end.

(** [re.split(pattern, txt)] for a pattern without capturing groups. *)
Definition re_split (r : regex) (txt : str) : list str :=
  pieces txt 0 (finditer r txt).

(** ** The patterns of [app.py] *)

Definition spaces1 : regex := Rep true 1 Space.      (* \s+ *)
Definition spaces0 : regex := Rep true 0 Space.      (* \s* *)

(** [[\w@()\->]+] *)
Definition target : regex :=
  Rep true 1 (Union Word (Chars (lit "@()->"))).

(** [SELECT_RE], compiled with IGNORECASE | DOTALL | VERBOSE. *)
Definition SELECT_RE : regex :=
  Seq
    (Grp "full"
       (seqs
          [ Lit (lit "SELECT"); spaces1; Opt (Seq (Lit (lit "SINGLE")) spaces1);
            Grp "fields" (Rep false 1 Dot);
            spaces1; Lit (lit "FROM"); spaces1;
            Grp "from_clause" (Rep false 0 Dot);
            Look
              (Seq spaces1
                 (Grp "4"
                    (alts (Lit (lit "WHERE"))
                       [ Lit (lit "INTO"); Lit (lit "ORDER"); Lit (lit "GROUP");
                         Lit (lit "HAVING");
                         seqs [ Lit (lit "FOR"); spaces1; Lit (lit "ALL");
                                spaces1; Lit (lit "ENTRIES") ];
                         Eos ])));
            Grp "middle" (Rep false 0 Dot);
            Alt
              (seqs [ Lit (lit "INTO"); spaces1; Lit (lit "TABLE"); spaces1;
                      Grp "into_tab" target ])
              (seqs [ Lit (lit "INTO"); spaces1; Grp "into_wa" target ]);
            Grp "tail" (Rep false 0 Dot) ]))
    (Chr ".").

(** [\bJOIN\b] and [\bON\b], both with IGNORECASE. *)
Definition JOIN_RE : regex := seqs [Bnd; Lit (lit "JOIN"); Bnd].
Definition ON_RE : regex := seqs [Bnd; Lit (lit "ON"); Bnd].

(** [(\w+)(?:\s+(?:AS\s+)?(\w+))?] with IGNORECASE. *)
Definition tbl_alias_re : regex :=
  Seq (Grp "1" (Rep true 1 Word))
      (Opt (seqs [ spaces1; Opt (Seq (Lit (lit "AS")) spaces1);
                   Grp "2" (Rep true 1 Word) ])).

(** The accepted false literals: SPACE, a quoted blank, two double quotes,
    two single quotes, abap_false and ABAP_FALSE. *)
Definition false_literals : regex :=
  alts (Lit (lit "SPACE"))
    [ Lit (lit "' '"); Lit [dquote; dquote]; Lit (lit "''");
      Lit (lit "abap_false"); Lit (lit "ABAP_FALSE") ].

(** [rf"{re.escape(alias)}\s*~\s*draft\s*=\s*(...)"] with IGNORECASE. *)
Definition draft_pattern (alias : str) : regex :=
  seqs [ Lit alias; spaces0; Chr "~"; spaces0; Lit (lit "draft"); spaces0;
         Chr "="; spaces0; Grp "1" false_literals ].

(** ** Models *)

Record Finding : Type := {
  prog_name : option str;
  incl_name : option str;
  types : option str;
  blockname : option str;
  starting_line : option Z;
  ending_line : option Z;
  issues_type : option str;
  severity : option str;
  message : option str;
  suggestion : option str;
  snippet : option str
}.

Record Unit : Type := {
  pgm_name : str;
  inc_name : str;
  type : str;
  name : option str;
  class_implementation : option str;
  start_line : option Z;
  end_line : option Z;
  code : option str;
  findings : option (list Finding)
}.

(** The dictionaries [{"table": ..., "alias": ...}] of [extract_tables]. *)
Record TableRef : Type := { table : str; alias : str }.

(** The dictionaries [{"text": ..., "tables": ..., "span": ...}] of
    [find_selects]. *)
Record Select : Type := {
  text : str;
  tables : list TableRef;
  span : nat * nat
}.

(** ** Helpers *)

Definition get_line_snippet (txt : str) (start stop : nat) : str :=
  let line_start :=
    match rfind_nl txt start with
    | None => 0
    | Some i => i + 1
    end in
  let line_end :=
    match find_nl txt stop with
    | None => List.length txt
    | Some i => i
    end in
  slice txt line_start line_end.

(** Python's [a or b] on an optional string. *)
Definition or_str (a : option str) (b : str) : str :=
  match a with
  | Some (c :: s) => c :: s
  | _ => b
  end.

Definition table_of_candidate (candidate : str) : list TableRef :=
  let cand := strip candidate in
  match cand with
  | [] => []
  | _ =>
      match re_match tbl_alias_re cand with
      | Some m =>
          let tbl := upper (or_str (group cand m "1") []) in
          let als := upper (or_str (group cand m "2")
                              (or_str (group cand m "1") [])) in
          match tbl with
          | [] => []
          | _ => [ {| table := tbl; alias := als |} ]
          end
      | None => []
      end
  end.

Definition extract_tables (from_clause : str) : list TableRef :=
  flat_map
    (fun join_part =>
       let join_part := hd [] (re_split ON_RE join_part) in
       flat_map table_of_candidate (split_on "," join_part))
    (re_split JOIN_RE from_clause).

(** [t["table"] in ("VBRK", "VBRP")] *)
Definition is_vbrk_vbrp (t : TableRef) : bool :=
  str_eqb (table t) (lit "VBRK") || str_eqb (table t) (lit "VBRP").

Definition select_of_match (txt : str) (m : mobj) : list Select :=
  let from_clause := or_str (group txt m "from_clause") [] in
  let tbls := extract_tables from_clause in
  match filter is_vbrk_vbrp tbls with
  | [] => []
  | _ :: _ =>
      [ {| text := or_str (group txt m "full") [];
           tables := tbls;
           span := (m_start m, m_end m) |} ]
  end.

Definition find_selects (txt : str) : list Select :=
  flat_map (select_of_match txt) (finditer SELECT_RE txt).

Definition _has_draft_check (sel_stmt alias : str) : bool :=
  match re_search (draft_pattern alias) sel_stmt with
  | Some _ => true
  | None => false
  end.

Definition draft_filter_missing (sel_stmt : str) (tbls : list TableRef) : bool :=
  let v_tables := filter is_vbrk_vbrp tbls in
  match v_tables with
  | [] => false
  | _ :: _ =>
      if forallb (fun t => _has_draft_check sel_stmt (alias t)) v_tables
      then false
      else true
  end.

(** ** The scanner *)

Definition table_list (tbls : list TableRef) : str :=
  join (lit ", ")
    (map (fun t => table t ++ lit " (" ++ alias t ++ lit ")")
       (filter is_vbrk_vbrp tbls)).

Definition msg : str :=
  lit "SELECT on VBRK/VBRP without draft filter per SAP Note 2768887.".

Definition sug (tbls : list TableRef) : str :=
  lit "For this SELECT on " ++ table_list tbls
  ++ lit ", add draft filter condition(s) "
  ++ lit "alias~draft = space for all VBRK/VBRP aliases involved.".

(** The body of the loop of [scan_unit] for a select that is reported. *)
Definition make_finding (unit : Unit) (src : str) (base_start : Z)
    (sel : Select) : Finding :=
  let '(stmt_start, stmt_end) := span sel in
  let line_in_block := (Z.of_nat (count_nl (slice src 0 stmt_start)) + 1)%Z in
  let snippet_line := get_line_snippet src stmt_start stmt_end in
  let snippet_line_count := (Z.of_nat (count_nl snippet_line) + 1)%Z in
  let starting_line_abs := (base_start + line_in_block)%Z in
  let ending_line_abs := (base_start + line_in_block + snippet_line_count)%Z in
  {| prog_name := Some (pgm_name unit);
     incl_name := Some (inc_name unit);
     types := Some (type unit);
     blockname := name unit;
     starting_line := Some starting_line_abs;
     ending_line := Some ending_line_abs;
     issues_type := Some (lit "MissingDraftFilter");
     severity := Some (lit "error");
     message := Some msg;
     suggestion := Some (sug (tables sel));
     snippet := Some (escape_nl snippet_line) |}.

(** The loop of [scan_unit]: [acc] is the list [findings] built so far. *)
Fixpoint scan_loop (unit : Unit) (src : str) (base_start : Z)
    (selects : list Select) (acc : list Finding) : list Finding :=
  match selects with
  | [] => acc
  | sel :: selects' =>
      if negb (draft_filter_missing (text sel) (tables sel))
      then scan_loop unit src base_start selects' acc
      else scan_loop unit src base_start selects'
             (acc ++ [make_finding unit src base_start sel])
  end.

Definition with_findings (unit : Unit) (fs : option (list Finding)) : Unit :=
  {| pgm_name := pgm_name unit;
     inc_name := inc_name unit;
     type := type unit;
     name := name unit;
     class_implementation := class_implementation unit;
     start_line := start_line unit;
     end_line := end_line unit;
     code := code unit;
     findings := fs |}.

Definition scan_unit (unit : Unit) : Unit :=
  let src := match code unit with Some s => s | None => [] end in
  let selects := find_selects src in
  let base_start := match start_line unit with Some z => z | None => 0%Z end in
  let fs := scan_loop unit src base_start selects [] in
  with_findings unit (match fs with [] => None | _ :: _ => Some fs end).

(** A unit with the given start line and code, the other fields at the
    defaults of the model class. *)
Definition unit_of (start : Z) (src : str) : Unit :=
  {| pgm_name := lit "ZPROG"; inc_name := lit "ZINCL"; type := lit "PROG";
     name := Some []; class_implementation := None;
     start_line := Some start; end_line := Some 0%Z;
     code := Some src; findings := None |}.

(** ** Endpoints *)

(** The loop of [remediate_array]: [results] is the list built so far; a
    scanned unit is kept when its findings are truthy. *)
Fixpoint remediate_loop (units results : list Unit) : list Unit :=
  match units with
  | [] => results
  | u :: units' =>
      let res := scan_unit u in
      match findings res with
      | Some (_ :: _) => remediate_loop units' (results ++ [res])
      | _ => remediate_loop units' results
      end
  end.

Definition remediate_array (units : list Unit) : list Unit :=
  remediate_loop units [].

Definition remediate_single (unit : Unit) : Unit := scan_unit unit.

(** ** The relational reading of patterns

    [matches r c c'] says that [r] can match from cursor [c] to cursor [c'],
    whatever the priority of that way of matching. *)

Inductive matches : regex -> cursor -> cursor -> Prop :=
| M_Eps cur : matches Eps cur cur
| M_Chr a p pv c rs :
    ci_eqb a c = true ->
    matches (Chr a) (Cursor p pv (c :: rs)) (Cursor (S p) (Some c) rs)
| M_Cls s p pv c rs :
    in_cset s c = true ->
    matches (Cls s) (Cursor p pv (c :: rs)) (Cursor (S p) (Some c) rs)
| M_Seq r1 r2 c1 c2 c3 :
    matches r1 c1 c2 -> matches r2 c2 c3 -> matches (Seq r1 r2) c1 c3
| M_AltL r1 r2 c c' : matches r1 c c' -> matches (Alt r1 r2) c c'
| M_AltR r1 r2 c c' : matches r2 c c' -> matches (Alt r1 r2) c c'
| M_Rep0 g s p pv rs : matches (Rep g 0 s) (Cursor p pv rs) (Cursor p pv rs)
| M_RepS g min s p pv c rs c' :
    in_cset s c = true ->
    matches (Rep g (Nat.pred min) s) (Cursor (S p) (Some c) rs) c' ->
    matches (Rep g min s) (Cursor p pv (c :: rs)) c'
| M_OptY r c c' : matches r c c' -> matches (Opt r) c c'
| M_OptN r c : matches (Opt r) c c
| M_Grp g r c c' : matches r c c' -> matches (Grp g r) c c'
| M_Look r c c' : matches r c c' -> matches (Look r) c c
| M_Bnd c : at_boundary c = true -> matches Bnd c c
| M_Eos c : at_eos c = true -> matches Eos c c.

(** [reach c c']: [c'] is [c] moved forward over some characters. *)
Inductive reach : cursor -> cursor -> Prop :=
| reach_here c : reach c c
| reach_next p pv c rs c' :
    reach (Cursor (S p) (Some c) rs) c' -> reach (Cursor p pv (c :: rs)) c'.

(** [cmatches r c cp c' cp']: as [matches], with the groups recorded: from
    cursor [c] and captures [cp] the pattern can match up to [c'] leaving
    the captures [cp']. *)
Inductive cmatches : regex -> cursor -> caps -> cursor -> caps -> Prop :=
| CM_Eps c cp : cmatches Eps c cp c cp
| CM_Chr a c c' cp : matches (Chr a) c c' -> cmatches (Chr a) c cp c' cp
| CM_Cls s c c' cp : matches (Cls s) c c' -> cmatches (Cls s) c cp c' cp
| CM_Seq r1 r2 c1 cp1 c2 cp2 c3 cp3 :
    cmatches r1 c1 cp1 c2 cp2 -> cmatches r2 c2 cp2 c3 cp3 ->
    cmatches (Seq r1 r2) c1 cp1 c3 cp3
| CM_AltL r1 r2 c cp c' cp' :
    cmatches r1 c cp c' cp' -> cmatches (Alt r1 r2) c cp c' cp'
| CM_AltR r1 r2 c cp c' cp' :
    cmatches r2 c cp c' cp' -> cmatches (Alt r1 r2) c cp c' cp'
| CM_Rep g min s c c' cp :
    matches (Rep g min s) c c' -> cmatches (Rep g min s) c cp c' cp
| CM_OptY r c cp c' cp' : cmatches r c cp c' cp' -> cmatches (Opt r) c cp c' cp'
| CM_OptN r c cp : cmatches (Opt r) c cp c cp
| CM_Grp g r c cp c' cp' :
    cmatches r c cp c' cp' ->
    cmatches (Grp g r) c cp c' ((g, (pos c, pos c')) :: cp')
| CM_Look r c cp c' cp' : cmatches r c cp c' cp' -> cmatches (Look r) c cp c cp'
| CM_Bnd c cp : at_boundary c = true -> cmatches Bnd c cp c cp
| CM_Eos c cp : at_eos c = true -> cmatches Eos c cp c cp.

(** The pattern holds a capturing group. *)
Fixpoint has_group (r : regex) : bool :=
  match r with
  | Eps | Chr _ | Cls _ | Rep _ _ _ | Bnd | Eos => false
  | Seq r1 r2 | Alt r1 r2 => has_group r1 || has_group r2
  | Opt r1 | Look r1 => has_group r1
  | Grp _ _ => true
  end.

(** The least number of characters that a match of a pattern consumes. *)
Fixpoint min_len (r : regex) : nat :=
  match r with
  | Eps | Look _ | Bnd | Eos | Opt _ => 0
  | Chr _ | Cls _ => 1
  | Seq r1 r2 => min_len r1 + min_len r2
  | Alt r1 r2 => Nat.min (min_len r1) (min_len r2)
  | Rep _ min _ => min
  | Grp _ r1 => min_len r1
  end.

(** ** Vocabulary of the specification *)

Definition src_of (unit : Unit) : str :=
  match code unit with Some s => s | None => [] end.

Definition base_of (unit : Unit) : Z :=
  match start_line unit with Some z => z | None => 0%Z end.

(** The selects of a unit that the scanner reports, in order. *)
Definition reported_selects (unit : Unit) : list Select :=
  filter (fun sel => draft_filter_missing (text sel) (tables sel))
    (find_selects (src_of unit)).

(** The 1-based number of the line of [txt] that holds offset [off]. *)
Definition line_number (txt : str) (off : nat) : Z :=
  (Z.of_nat (count_nl (firstn off txt)) + 1)%Z.

(** [snip] is the window of whole lines of [txt] around the span [s, e):
    it starts after the nearest newline before [s] (or at the start of the
    text) and stops before the nearest newline at or after [e] (or at the
    end of the text). *)
Definition line_window (txt : str) (s e : nat) (snip : str) : Prop :=
  exists a b,
    snip = slice txt a b /\
    a <= s /\ (a = 0 \/ nth_error txt (a - 1) = Some nl) /\
    (forall i, a <= i < s -> nth_error txt i <> Some nl) /\
    e <= b <= List.length txt /\
    (b = List.length txt \/ nth_error txt b = Some nl) /\
    (forall i, e <= i < b -> nth_error txt i <> Some nl).

(** The from-clauses of the statements located in a text. *)
Definition from_clauses (txt : str) : list str :=
  map (fun m => or_str (group txt m "from_clause") [])
    (finditer SELECT_RE txt).

Definition references_vbrk_vbrp (from_clause : str) : Prop :=
  exists t, In t (extract_tables from_clause) /\
            (table t = lit "VBRK" \/ table t = lit "VBRP").

(** The findings of a unit as a list, empty when the field is absent. *)
Definition findings_of (unit : Unit) : list Finding :=
  match findings unit with Some fs => fs | None => [] end.

(** [w] equals [s] up to the case of letters. *)
Definition ci_eq (w s : str) : Prop :=
  Forall2 (fun x a => ci_eqb a x = true) w s.

Definition all_space (w : str) : Prop := Forall (fun x => is_space x = true) w.

(** The cursor reached from position [p] after reading [w], [rs] remaining. *)
Fixpoint run (p : nat) (pv : option ascii) (w rs : str) : cursor :=
  match w with
  | [] => Cursor p pv rs
  | c :: w' => run (S p) (Some c) w' rs
  end.

(** The accepted spellings of the false literal. *)
Definition false_literal (l : str) : Prop :=
  ci_eq l (lit "SPACE") \/ l = lit "' '" \/ l = [dquote; dquote] \/
  l = lit "''" \/ ci_eq l (lit "abap_false").

(** [stmt] holds, somewhere, a predicate [<alias>~draft = <false-literal>]:
    the alias and the word [draft] in any letter case, any whitespace around
    [~] and [=]. *)
Definition carries_draft_predicate (stmt alias : str) : Prop :=
  exists pre a w1 w2 d w3 w4 l post,
    stmt = pre ++ a ++ w1 ++ lit "~" ++ w2 ++ d ++ w3 ++ lit "=" ++ w4
           ++ l ++ post /\
    ci_eq a alias /\ ci_eq d (lit "draft") /\ false_literal l /\
    all_space w1 /\ all_space w2 /\ all_space w3 /\ all_space w4.

(** [w] occurs in [t] as a contiguous stretch. *)
Definition substr (w t : str) : Prop := exists pre post, t = pre ++ w ++ post.

(** Some stretch of [txt] spells the table name [tbl] in some letter case. *)
Definition names_table (txt tbl : str) : Prop :=
  exists w, substr w txt /\ upper w = tbl.

(** Some stretch of [txt] spells INTO in some letter case. *)
Definition has_into (txt : str) : Prop :=
  exists w, substr w txt /\ ci_eq w (lit "INTO").

(** [unit] with its start line replaced. *)
Definition set_start (z : option Z) (unit : Unit) : Unit :=
  {| pgm_name := pgm_name unit;
     inc_name := inc_name unit;
     type := type unit;
     name := name unit;
     class_implementation := class_implementation unit;
     start_line := z;
     end_line := end_line unit;
     code := code unit;
     findings := findings unit |}.

(** A finding moved down by [d] lines. *)
Definition shift_finding (d : Z) (f : Finding) : Finding :=
  {| prog_name := prog_name f;
     incl_name := incl_name f;
     types := types f;
     blockname := blockname f;
     starting_line := option_map (Z.add d) (starting_line f);
     ending_line := option_map (Z.add d) (ending_line f);
     issues_type := issues_type f;
     severity := severity f;
     message := message f;
     suggestion := suggestion f;
     snippet := snippet f |}.

(** The spans of [ms] follow one another from offset [lo] on: each starts
    at or after the end of the one before. *)
Fixpoint spans_ordered (lo : nat) (ms : list (nat * nat)) : Prop :=
  match ms with
  | [] => True
  | (a, b) :: ms' => lo <= a /\ a <= b /\ spans_ordered b ms'
  end.

(** An identifier: a non-empty run of word characters. *)
Definition identifier (s : str) : Prop :=
  s <> [] /\ Forall (fun c => is_word c = true) s.

(** An identifier without lower-case letters. *)
Definition upper_identifier (s : str) : Prop :=
  s <> [] /\ Forall (fun c => is_word c = true /\ is_lower c = false) s.

(** [m.span(0)] *)
Definition mspan (m : mobj) : nat * nat := (m_start m, m_end m).

(** The findings field is truthy. *)
Definition has_findings (unit : Unit) : bool :=
  match findings unit with
  | Some (_ :: _) => true
  | _ => false
  end.

(** ** Example units *)

Definition lines (ls : list str) : str := join [nl] ls.

Definition stmt_violation : str :=
  lit "SELECT a~vbeln FROM vbrk AS a INTO TABLE @lt_result.".

Definition stmt_partial : str :=
  lit "SELECT * FROM vbrk AS a JOIN vbrp AS b ON a~vbeln = b~vbeln INTO TABLE @lt WHERE a~draft = space.".

Definition stmt_default_alias : str := lit "SELECT * FROM vbrk INTO TABLE @lt.".

Definition stmt_suffix_alias : str :=
  lit "SELECT * FROM vbrk AS a JOIN vbrp AS ba ON a~vbeln = ba~vbeln INTO TABLE @lt WHERE ba~draft = space.".


Definition code_fifth_line : str :=
  lines [ lit "REPORT zbilling.";
          lit "DATA lt TYPE TABLE OF vbrk.";
          [];
          lit "START-OF-SELECTION.";
          lit "  SELECT * FROM vbrk INTO TABLE @lt.";
          lit "  WRITE 'done'." ].

Definition code_other_table : str :=
  lines [ lit "SELECT matnr FROM mara INTO TABLE @lt_mara.";
          lit "SELECT SINGLE * FROM t001 INTO @ls_t001 WHERE bukrs = '1000'." ].

Definition code_no_into_then_into : str :=
  lines [ lit "SELECT * FROM vbrk WHERE vbeln = lv_vbeln.";
          lit "ENDSELECT.";
          lit "SELECT * FROM mara INTO TABLE @lt_mara." ].

Definition code_select_other_tables : str :=
  lines [ lit "SELECT * INTO TABLE lt_mara FROM mara.";
          lit "WRITE: / sy-dbcnt, vbrk-vbeln.";
          lit "SELECT * FROM t001 INTO TABLE lt_t001." ].

Definition tref (t a : string) : TableRef := {| table := lit t; alias := lit a |}.

(** ** Lemmas on the string helpers *)

Lemma str_eqb_eq (a b : str) : str_eqb a b = true <-> a = b.
Proof.
  revert b; induction a as [|x a IH]; intros [|y b]; simpl;
    try (split; congruence).
  rewrite andb_true_iff, Ascii.eqb_eq, IH. split.
  - intros [-> ->]; reflexivity.
  - intros H; injection H; auto.
Qed.

Lemma is_vbrk_vbrp_iff (t : TableRef) :
  is_vbrk_vbrp t = true <-> table t = lit "VBRK" \/ table t = lit "VBRP".
Proof.
  unfold is_vbrk_vbrp. rewrite orb_true_iff, !str_eqb_eq. reflexivity.
Qed.

Lemma slice_0 (t : str) (n : nat) : slice t 0 n = firstn n t.
Proof. unfold slice. rewrite Nat.sub_0_r. reflexivity. Qed.

Lemma find_nl_from_spec (t : str) (from : nat) :
  forall i,
    match find_nl_from t i from with
    | Some j =>
        i <= j /\ from <= j /\ nth_error t (j - i) = Some nl /\
        forall m, i <= m -> from <= m -> m < j -> nth_error t (m - i) <> Some nl
    | None =>
        forall m, i <= m -> from <= m -> nth_error t (m - i) <> Some nl
    end.
Proof.
  induction t as [|c t IH]; intros i; simpl.
  - intros m _ _. destruct (m - i); discriminate.
  - destruct ((from <=? i) && (c =? nl)%char) eqn:E.
    + apply andb_true_iff in E. destruct E as [E1 E2].
      apply Nat.leb_le in E1. apply Ascii.eqb_eq in E2. subst c.
      rewrite Nat.sub_diag. repeat split; auto; lia.
    + specialize (IH (S i)).
      assert (Hhere : from <= i -> c <> nl).
      { intros Hle Hc. subst c. apply Nat.leb_le in Hle.
        rewrite Hle, Ascii.eqb_refl in E. discriminate. }
      destruct (find_nl_from t (S i) from) as [j|].
      * destruct IH as (H1 & H2 & H3 & H4). repeat split; try lia.
        -- replace (j - i) with (S (j - S i)) by lia. exact H3.
        -- intros m Hm1 Hm2 Hm3. destruct (Nat.eq_dec m i) as [->|Hne].
           ++ rewrite Nat.sub_diag. simpl. intros Hc. injection Hc as Hc.
              exact (Hhere Hm2 Hc).
           ++ replace (m - i) with (S (m - S i)) by lia. simpl.
              apply H4; lia.
      * intros m Hm1 Hm2. destruct (Nat.eq_dec m i) as [->|Hne].
        -- rewrite Nat.sub_diag. simpl. intros Hc. injection Hc as Hc.
           exact (Hhere Hm2 Hc).
        -- replace (m - i) with (S (m - S i)) by lia. simpl.
           apply IH; lia.
Qed.

Lemma rfind_nl_from_spec (t : str) (to : nat) :
  forall i last,
    match rfind_nl_from t i to last with
    | Some j =>
        (last = Some j \/ (i <= j < to /\ nth_error t (j - i) = Some nl)) /\
        forall m, i <= m -> j < m -> m < to -> nth_error t (m - i) <> Some nl
    | None =>
        last = None /\
        forall m, i <= m -> m < to -> nth_error t (m - i) <> Some nl
    end.
Proof.
  induction t as [|c t IH]; intros i last; simpl.
  - destruct last as [j|].
    + split; auto. intros m _ _ _. destruct (m - i); discriminate.
    + split; auto. intros m _ _. destruct (m - i); discriminate.
  - destruct (i <? to) eqn:E.
    + apply Nat.ltb_lt in E.
      specialize (IH (S i) (if (c =? nl)%char then Some i else last)).
      destruct (rfind_nl_from t (S i) to _) as [j|].
      * destruct IH as [H1 H2]. split.
        -- destruct H1 as [H1|[H1 H3]].
           ++ destruct (c =? nl)%char eqn:Ec.
              ** injection H1 as <-. right. rewrite Nat.sub_diag. simpl.
                 apply Ascii.eqb_eq in Ec. subst c. split; [lia|reflexivity].
              ** left. exact H1.
           ++ right. split; [lia|].
              replace (j - i) with (S (j - S i)) by lia. exact H3.
        -- intros m Hm1 Hm2 Hm3. destruct (Nat.eq_dec m i) as [->|Hne].
           ++ rewrite Nat.sub_diag. simpl. intros Hc. injection Hc as ->.
              rewrite Ascii.eqb_refl in H1.
              destruct H1 as [H1|[H1 _]]; [injection H1; lia | lia].
           ++ replace (m - i) with (S (m - S i)) by lia. simpl.
              apply H2; lia.
      * destruct IH as [H1 H2].
        destruct (c =? nl)%char eqn:Ec; [discriminate|].
        split; auto.
        intros m Hm1 Hm2. destruct (Nat.eq_dec m i) as [->|Hne].
        -- rewrite Nat.sub_diag. simpl. intros Hc. injection Hc as ->.
           rewrite Ascii.eqb_refl in Ec. discriminate.
        -- replace (m - i) with (S (m - S i)) by lia. simpl.
           apply H2; lia.
    + apply Nat.ltb_ge in E. destruct last as [j|].
      * split; auto. intros; lia.
      * split; auto. intros; lia.
Qed.

Lemma get_line_snippet_window (txt : str) (s e : nat) :
  e <= List.length txt -> line_window txt s e (get_line_snippet txt s e).
Proof.
  intros He. unfold get_line_snippet, rfind_nl, find_nl.
  pose proof (rfind_nl_from_spec txt s 0 None) as Hr.
  pose proof (find_nl_from_spec txt e 0) as Hf.
  assert (Ha : exists a,
             a = match rfind_nl_from txt 0 s None with
                 | Some i => i + 1 | None => 0 end /\
             a <= s /\ (a = 0 \/ nth_error txt (a - 1) = Some nl) /\
             forall i, a <= i < s -> nth_error txt i <> Some nl).
  { destruct (rfind_nl_from txt 0 s None) as [j|].
    - destruct Hr as [[Hr|[Hr1 Hr2]] Hr3]; [discriminate|].
      rewrite Nat.sub_0_r in Hr2.
      exists (j + 1). repeat split; try lia.
      + right. replace (j + 1 - 1) with j by lia. exact Hr2.
      + intros i Hi. specialize (Hr3 i). rewrite Nat.sub_0_r in Hr3.
        apply Hr3; lia.
    - destruct Hr as [_ Hr3]. exists 0. repeat split; auto; try lia.
      intros i Hi. specialize (Hr3 i). rewrite Nat.sub_0_r in Hr3.
      apply Hr3; lia. }
  assert (Hb : exists b,
             b = match find_nl_from txt 0 e with
                 | Some i => i | None => List.length txt end /\
             e <= b <= List.length txt /\
             (b = List.length txt \/ nth_error txt b = Some nl) /\
             forall i, e <= i < b -> nth_error txt i <> Some nl).
  { destruct (find_nl_from txt 0 e) as [j'|].
    - destruct Hf as (_ & Hf1 & Hf2 & Hf3). rewrite Nat.sub_0_r in Hf2.
      assert (j' < List.length txt) by (apply nth_error_Some; congruence).
      exists j'. repeat split; try lia.
      + right. exact Hf2.
      + intros i Hi. specialize (Hf3 i). rewrite Nat.sub_0_r in Hf3.
        apply Hf3; lia.
    - exists (List.length txt). repeat split; auto; try lia.
      intros i Hi. specialize (Hf i). rewrite Nat.sub_0_r in Hf.
      apply Hf; lia. }
  destruct Ha as (a & -> & Ha1 & Ha2 & Ha3).
  destruct Hb as (b & -> & Hb1 & Hb2 & Hb3).
  eexists _, _. split; [reflexivity|]. auto 10.
Qed.

(** ** The matcher against the relational reading *)

Lemma reach_trans (c1 c2 c3 : cursor) : reach c1 c2 -> reach c2 c3 -> reach c1 c3.
Proof.
  induction 1 as [c|p pv c rs c' H IH]; intros H'; [exact H'|].
  apply reach_next. apply IH. exact H'.
Qed.

Ltac reach_chain :=
  first [ apply reach_here
        | eassumption
        | eapply reach_trans; [eassumption|reach_chain] ].

Lemma reach_bounds (c c' : cursor) :
  reach c c' ->
  pos c <= pos c' /\
  pos c' + List.length (rest c') = pos c + List.length (rest c).
Proof.
  induction 1 as [c|p pv c rs c' H IH]; simpl in *; lia.
Qed.

Lemma matches_reach (r : regex) (c c' : cursor) : matches r c c' -> reach c c'.
Proof.
  induction 1; try apply reach_here; auto.
  - apply reach_next, reach_here.
  - apply reach_next, reach_here.
  - eapply reach_trans; eassumption.
  - apply reach_next. assumption.
Qed.

Lemma rep_stop_some (min : nat) (cur : cursor) (cp : caps) (k : cont) x :
  rep_stop min cur cp k = Some x -> min = 0 /\ k cur cp = Some x.
Proof. destruct min; simpl; [auto|discriminate]. Qed.

Lemma rep_greedy_sound (s : cset) (k : cont) x :
  forall rs min p pv cp,
    rep_greedy s min p pv rs cp k = Some x ->
    exists c' cp',
      matches (Rep true min s) (Cursor p pv rs) c' /\ k c' cp' = Some x.
Proof.
  induction rs as [|c rs IH]; intros min p pv cp H; simpl in H.
  - apply rep_stop_some in H. destruct H as [-> H].
    eexists _, _. split; [apply M_Rep0|exact H].
  - destruct (in_cset s c) eqn:Ec.
    + destruct (rep_greedy s (Nat.pred min) (S p) (Some c) rs cp k) as [y|] eqn:E.
      * injection H as <-. apply IH in E. destruct E as (c' & cp' & Hm & Hk).
        exists c', cp'. split; [|exact Hk]. apply M_RepS; assumption.
      * apply rep_stop_some in H. destruct H as [-> H].
        eexists _, _. split; [apply M_Rep0|exact H].
    + apply rep_stop_some in H. destruct H as [-> H].
      eexists _, _. split; [apply M_Rep0|exact H].
Qed.

Lemma rep_lazy_sound (s : cset) (k : cont) x :
  forall rs min p pv cp,
    rep_lazy s min p pv rs cp k = Some x ->
    exists c' cp',
      matches (Rep false min s) (Cursor p pv rs) c' /\ k c' cp' = Some x.
Proof.
  induction rs as [|c rs IH]; intros min p pv cp H; simpl in H.
  - destruct (rep_stop min (Cursor p pv []) cp k) as [y|] eqn:E; [|discriminate].
    injection H as <-. apply rep_stop_some in E. destruct E as [-> E].
    eexists _, _. split; [apply M_Rep0|exact E].
  - destruct (rep_stop min (Cursor p pv (c :: rs)) cp k) as [y|] eqn:E.
    + injection H as <-. apply rep_stop_some in E. destruct E as [-> E].
      eexists _, _. split; [apply M_Rep0|exact E].
    + destruct (in_cset s c) eqn:Ec; [|discriminate].
      apply IH in H. destruct H as (c' & cp' & Hm & Hk).
      exists c', cp'. split; [|exact Hk]. apply M_RepS; assumption.
Qed.

(** Soundness: a result of the matcher comes from a way of matching. *)
Lemma rmatch_sound (r : regex) :
  forall cur cp k x,
    rmatch r cur cp k = Some x ->
    exists c' cp', matches r cur c' /\ k c' cp' = Some x.
Proof.
  induction r as [|a|s|r1 IH1 r2 IH2|r1 IH1 r2 IH2|g min s|r1 IH1|g r1 IH1
                 |r1 IH1| |]; intros cur cp k x H; simpl in H.
  - eexists _, _. split; [apply M_Eps|exact H].
  - destruct cur as [p pv [|c rs]]; simpl in H; [discriminate|].
    destruct (ci_eqb a c) eqn:E; [|discriminate].
    eexists _, _. split; [apply M_Chr; exact E|exact H].
  - destruct cur as [p pv [|c rs]]; simpl in H; [discriminate|].
    destruct (in_cset s c) eqn:E; [|discriminate].
    eexists _, _. split; [apply M_Cls; exact E|exact H].
  - apply IH1 in H. destruct H as (c1 & cp1 & Hm1 & H).
    apply IH2 in H. destruct H as (c2 & cp2 & Hm2 & H).
    exists c2, cp2. split; [|exact H]. eapply M_Seq; eassumption.
  - destruct (rmatch r1 cur cp k) as [y|] eqn:E.
    + injection H as <-. apply IH1 in E. destruct E as (c' & cp' & Hm & Hk).
      exists c', cp'. split; [apply M_AltL; exact Hm|exact Hk].
    + apply IH2 in H. destruct H as (c' & cp' & Hm & Hk).
      exists c', cp'. split; [apply M_AltR; exact Hm|exact Hk].
  - destruct cur as [p pv rs]. destruct g; simpl in H.
    + apply rep_greedy_sound in H. exact H.
    + apply rep_lazy_sound in H. exact H.
  - destruct (rmatch r1 cur cp k) as [y|] eqn:E.
    + injection H as <-. apply IH1 in E. destruct E as (c' & cp' & Hm & Hk).
      exists c', cp'. split; [apply M_OptY; exact Hm|exact Hk].
    + eexists _, _. split; [apply M_OptN|exact H].
  - apply IH1 in H. destruct H as (c' & cp' & Hm & Hk).
    eexists _, _. split; [apply M_Grp; exact Hm|exact Hk].
  - destruct (rmatch r1 cur cp (fun cur' cp' => Some (cur', cp')))
      as [[c1 cp1]|] eqn:E; [|discriminate].
    apply IH1 in E. destruct E as (c' & cp' & Hm & _).
    eexists _, _. split; [eapply M_Look; exact Hm|exact H].
  - destruct (at_boundary cur) eqn:E; [|discriminate].
    eexists _, _. split; [apply M_Bnd; exact E|exact H].
  - destruct (at_eos cur) eqn:E; [|discriminate].
    eexists _, _. split; [apply M_Eos; exact E|exact H].
Qed.

(** Completeness: when the pattern can match up to a cursor at which the
    continuation succeeds, the matcher returns a result. *)
Lemma rmatch_complete (r : regex) (c c' : cursor) :
  matches r c c' ->
  forall cp k, (forall cp', k c' cp' <> None) -> rmatch r c cp k <> None.
Proof.
  induction 1 as [cur|a p pv c rs E|s p pv c rs E|r1 r2 c1 c2 c3 H1 IH1 H2 IH2
                 |r1 r2 c c' H1 IH1|r1 r2 c c' H1 IH1|g s p pv rs
                 |g min s p pv c rs c' E H1 IH1|r c c' H1 IH1|r c
                 |g r c c' H1 IH1|r c c' H1 IH1|c E|c E];
    intros cp k Hk; simpl.
  - apply Hk.
  - rewrite E. apply Hk.
  - rewrite E. apply Hk.
  - apply IH1. intros cp'. apply IH2. exact Hk.
  - specialize (IH1 cp k Hk). destruct (rmatch r1 c cp k); congruence.
  - specialize (IH1 cp k Hk). destruct (rmatch r1 c cp k); congruence.
  - destruct g; destruct rs as [|c rs]; simpl.
    + apply Hk.
    + destruct (in_cset s c); [|apply Hk].
      destruct (rep_greedy s 0 (S p) (Some c) rs cp k); [congruence|apply Hk].
    + specialize (Hk cp). destruct (k (Cursor p pv []) cp); congruence.
    + specialize (Hk cp). destruct (k (Cursor p pv (c :: rs)) cp); congruence.
  - specialize (IH1 cp k Hk). destruct g; simpl in *; rewrite E.
    + destruct (rep_greedy s (Nat.pred min) (S p) (Some c) rs cp k); congruence.
    + destruct (rep_stop min (Cursor p pv (c :: rs)) cp k); congruence.
  - specialize (IH1 cp k Hk). destruct (rmatch r c cp k); congruence.
  - destruct (rmatch r c cp k); [congruence|apply Hk].
  - apply IH1. intros cp'. apply Hk.
  - specialize (IH1 cp (fun cur' cp' => Some (cur', cp'))).
    destruct (rmatch r c cp (fun cur' cp' => Some (cur', cp'))) as [[c1 cp1]|].
    + apply Hk.
    + exfalso. apply IH1; [intros; discriminate|reflexivity].
  - rewrite E. apply Hk.
  - rewrite E. apply Hk.
Qed.

Lemma match_at_sound (r : regex) (cur : cursor) (m : mobj) :
  match_at r cur = Some m ->
  exists c', matches r cur c' /\ m_start m = pos cur /\ m_end m = pos c'.
Proof.
  unfold match_at. intros H.
  destruct (rmatch r cur [] accept) as [[c' cp]|] eqn:E; [|discriminate].
  injection H as <-. apply rmatch_sound in E.
  destruct E as (c1 & cp1 & Hm & Hk). unfold accept in Hk.
  injection Hk as <- <-. exists c1. auto.
Qed.

Lemma match_at_complete (r : regex) (cur c' : cursor) :
  matches r cur c' -> match_at r cur <> None.
Proof.
  intros H. unfold match_at.
  pose proof (@rmatch_complete r cur c' H [] accept) as Hc.
  destruct (rmatch r cur [] accept) as [[c1 cp1]|]; [discriminate|].
  exfalso. apply Hc; [intros; discriminate|reflexivity].
Qed.

Lemma search_from_sound (r : regex) (m : mobj) :
  forall rs p pv,
    search_from r p pv rs = Some m ->
    exists c0 c',
      reach (Cursor p pv rs) c0 /\ matches r c0 c' /\
      m_start m = pos c0 /\ m_end m = pos c'.
Proof.
  induction rs as [|c rs IH]; intros p pv H; simpl in H.
  - destruct (match_at r (Cursor p pv [])) as [m'|] eqn:E; [|discriminate].
    injection H as ->. apply match_at_sound in E.
    destruct E as (c' & Hm & Hs & He).
    eexists _, c'. split; [apply reach_here|auto].
  - destruct (match_at r (Cursor p pv (c :: rs))) as [m'|] eqn:E.
    + injection H as ->. apply match_at_sound in E.
      destruct E as (c' & Hm & Hs & He).
      eexists _, c'. split; [apply reach_here|auto].
    + apply IH in H. destruct H as (c0 & c' & Hr & Hm).
      exists c0, c'. split; [apply reach_next; exact Hr|exact Hm].
Qed.

Lemma search_from_complete (r : regex) (c c0 c' : cursor) :
  reach c c0 -> matches r c0 c' ->
  search_from r (pos c) (prev c) (rest c) <> None.
Proof.
  intros Hr Hm. induction Hr as [c|p pv x rs c0 Hr IH]; simpl.
  - destruct c as [p pv rs]; simpl.
    pose proof (match_at_complete Hm) as Hc.
    destruct rs; simpl; destruct (match_at r _); congruence.
  - destruct (match_at r (Cursor p pv (x :: rs))); [discriminate|].
    apply IH. exact Hm.
Qed.

Lemma finditer_from_sound (r : regex) (m : mobj) :
  forall rs skip p pv,
    In m (finditer_from r skip p pv rs) ->
    exists c0 c',
      reach (Cursor p pv rs) c0 /\ matches r c0 c' /\
      m_start m = pos c0 /\ m_end m = pos c'.
Proof.
  induction rs as [|c rs IH]; intros skip p pv H.
  - destruct skip; simpl in H; [|contradiction].
    destruct (match_at r (Cursor p pv [])) as [m'|] eqn:E; [|contradiction].
    destruct H as [->|[]]. apply match_at_sound in E.
    destruct E as (c' & Hm & Hs & He).
    eexists _, c'. split; [apply reach_here|auto].
  - assert (Hnext : forall n,
               In m (finditer_from r n (S p) (Some c) rs) ->
               exists c0 c',
                 reach (Cursor p pv (c :: rs)) c0 /\ matches r c0 c' /\
                 m_start m = pos c0 /\ m_end m = pos c').
    { intros n Hn. apply IH in Hn. destruct Hn as (c0 & c' & Hr & Hm).
      exists c0, c'. split; [apply reach_next; exact Hr|exact Hm]. }
    destruct skip; simpl in H; [|eapply Hnext; exact H].
    destruct (match_at r (Cursor p pv (c :: rs))) as [m'|] eqn:E.
    + destruct H as [->|H]; [|eapply Hnext; exact H].
      apply match_at_sound in E. destruct E as (c' & Hm & Hs & He).
      eexists _, c'. split; [apply reach_here|auto].
    + eapply Hnext; exact H.
Qed.

(** The spans of [finditer] lie within the text. *)
Lemma finditer_span (r : regex) (txt : str) (m : mobj) :
  In m (finditer r txt) -> m_start m <= m_end m <= List.length txt.
Proof.
  intros H. apply finditer_from_sound in H.
  destruct H as (c0 & c' & Hr & Hm & -> & ->).
  apply matches_reach in Hm.
  apply reach_bounds in Hr. apply reach_bounds in Hm. simpl in *. lia.
Qed.

Lemma matches_min_len (r : regex) (c c' : cursor) :
  matches r c c' -> pos c + min_len r <= pos c'.
Proof.
  induction 1; simpl in *; lia.
Qed.

Lemma finditer_nonempty (r : regex) (txt : str) (m : mobj) :
  0 < min_len r -> In m (finditer r txt) -> m_start m < m_end m.
Proof.
  intros Hr H. apply finditer_from_sound in H.
  destruct H as (c0 & c' & _ & Hm & -> & ->).
  apply matches_min_len in Hm. lia.
Qed.

Lemma iterated_patterns_nonempty :
  0 < min_len SELECT_RE /\ 0 < min_len JOIN_RE /\ 0 < min_len ON_RE.
Proof. repeat split; vm_compute; repeat constructor. Qed.

(** ** The scanner as a map over the reported selects *)

Lemma scan_loop_spec (unit : Unit) (src : str) (base : Z) :
  forall selects acc,
    scan_loop unit src base selects acc =
    acc ++ map (make_finding unit src base)
             (filter (fun sel => draft_filter_missing (text sel) (tables sel))
                selects).
Proof.
  induction selects as [|sel selects IH]; intros acc; simpl.
  - rewrite app_nil_r. reflexivity.
  - destruct (draft_filter_missing (text sel) (tables sel)); simpl.
    + rewrite IH, <- app_assoc. reflexivity.
    + apply IH.
Qed.

Lemma scan_unit_findings (unit : Unit) :
  findings (scan_unit unit) =
  match map (make_finding unit (src_of unit) (base_of unit))
          (reported_selects unit) with
  | [] => None
  | f :: fs => Some (f :: fs)
  end.
Proof.
  unfold scan_unit, with_findings; simpl.
  fold (src_of unit). fold (base_of unit).
  rewrite scan_loop_spec. simpl. unfold reported_selects.
  destruct (map _ _); reflexivity.
Qed.

Lemma findings_of_scan (unit : Unit) :
  findings_of (scan_unit unit) =
  map (make_finding unit (src_of unit) (base_of unit)) (reported_selects unit).
Proof.
  unfold findings_of. rewrite scan_unit_findings.
  destruct (map _ _); reflexivity.
Qed.

Lemma find_selects_span (txt : str) (sel : Select) :
  In sel (find_selects txt) ->
  fst (span sel) < snd (span sel) <= List.length txt.
Proof.
  unfold find_selects. intros H. apply in_flat_map in H.
  destruct H as (m & Hm & H).
  pose proof (finditer_span _ _ _ Hm) as Hs.
  pose proof (@finditer_nonempty _ _ _ (proj1 iterated_patterns_nonempty) Hm)
    as Hn.
  unfold select_of_match in H.
  destruct (filter is_vbrk_vbrp _); [contradiction|].
  destruct H as [<-|[]]. simpl. lia.
Qed.

Lemma reported_selects_In (unit : Unit) (sel : Select) :
  In sel (reported_selects unit) ->
  In sel (find_selects (src_of unit)) /\
  draft_filter_missing (text sel) (tables sel) = true.
Proof. unfold reported_selects. intros H. apply filter_In in H. exact H. Qed.

Lemma Forall2_map_l {A B : Type} (f : A -> B) (P : B -> A -> Prop) (l : list A) :
  (forall a, In a l -> P (f a) a) -> Forall2 P (map f l) l.
Proof.
  induction l as [|a l IH]; intros H; simpl; constructor.
  - apply H. left. reflexivity.
  - apply IH. intros b Hb. apply H. right. exact Hb.
Qed.

(** ** Literal runs, repetitions and the draft predicate *)

Lemma run_rest (w rs : str) : forall p pv, rest (run p pv w rs) = rs.
Proof. induction w as [|c w IH]; intros p pv; simpl; [reflexivity|apply IH]. Qed.

Lemma reach_run (w rs : str) :
  forall p pv, reach (Cursor p pv (w ++ rs)) (run p pv w rs).
Proof.
  induction w as [|c w IH]; intros p pv; simpl.
  - apply reach_here.
  - apply reach_next. apply IH.
Qed.

Lemma reach_inv (c c' : cursor) :
  reach c c' -> exists w, rest c = w ++ rest c'.
Proof.
  induction 1 as [c|p pv x rs c' H IH].
  - exists []. reflexivity.
  - destruct IH as [w Hw]. simpl in *. exists (x :: w). rewrite Hw. reflexivity.
Qed.

Lemma matches_Lit (s : str) :
  forall w rs p pv,
    ci_eq w s -> matches (Lit s) (Cursor p pv (w ++ rs)) (run p pv w rs).
Proof.
  induction s as [|a s IH]; intros w rs p pv H; inversion H; subst; simpl.
  - apply M_Eps.
  - eapply M_Seq; [apply M_Chr; assumption|apply IH; assumption].
Qed.

Lemma matches_Rep (g : bool) (s : cset) :
  forall w rs min p pv,
    Forall (fun x => in_cset s x = true) w -> min <= List.length w ->
    matches (Rep g min s) (Cursor p pv (w ++ rs)) (run p pv w rs).
Proof.
  induction w as [|c w IH]; intros rs min p pv H Hmin; simpl in *.
  - replace min with 0 by lia. apply M_Rep0.
  - inversion H; subst. apply M_RepS; [assumption|].
    apply IH; [assumption|lia].
Qed.

Lemma matches_Chr_inv (a : ascii) (c c' : cursor) :
  matches (Chr a) c c' ->
  exists x, ci_eqb a x = true /\ rest c = x :: rest c'.
Proof. intros H. inversion H; subst. exists c0. auto. Qed.

Lemma matches_Seq_inv (r1 r2 : regex) (c c' : cursor) :
  matches (Seq r1 r2) c c' ->
  exists c1, matches r1 c c1 /\ matches r2 c1 c'.
Proof. intros H. inversion H; subst. eauto. Qed.

Lemma matches_Alt_inv (r1 r2 : regex) (c c' : cursor) :
  matches (Alt r1 r2) c c' -> matches r1 c c' \/ matches r2 c c'.
Proof. intros H. inversion H; subst; auto. Qed.

Lemma matches_Grp_inv (g : string) (r : regex) (c c' : cursor) :
  matches (Grp g r) c c' -> matches r c c'.
Proof. intros H. inversion H; subst; auto. Qed.

Lemma matches_Lit_inv (s : str) :
  forall c c',
    matches (Lit s) c c' -> exists w, ci_eq w s /\ rest c = w ++ rest c'.
Proof.
  induction s as [|a s IH]; intros c c' H; simpl in H.
  - inversion H; subst. exists []. split; [constructor|reflexivity].
  - apply matches_Seq_inv in H. destruct H as (c1 & H1 & H2).
    apply matches_Chr_inv in H1. destruct H1 as (x & Hx & H1).
    apply IH in H2. destruct H2 as (w & Hw & H2).
    exists (x :: w). split; [constructor; assumption|].
    rewrite H1, H2. reflexivity.
Qed.

Lemma matches_Rep_inv (g : bool) (min : nat) (s : cset) (c c' : cursor) :
  matches (Rep g min s) c c' ->
  exists w, Forall (fun x => in_cset s x = true) w /\ min <= List.length w /\
            rest c = w ++ rest c'.
Proof.
  intros H. remember (Rep g min s) as r eqn:Er. revert min Er.
  induction H; intros min' Er; try discriminate;
    injection Er as Eg Em Es; subst.
  - exists []. repeat split; auto.
  - destruct (IHmatches _ eq_refl) as (w & Hw & Hmin & Hr). simpl in *.
    exists (c :: w). repeat split.
    + constructor; assumption.
    + simpl. lia.
    + rewrite Hr. reflexivity.
Qed.

(** Matching forward from any cursor whose remaining text starts with [w]. *)
Lemma matches_Lit_from (s w rs : str) (c : cursor) :
  rest c = w ++ rs -> ci_eq w s ->
  exists c', matches (Lit s) c c' /\ rest c' = rs.
Proof.
  intros Hr Hw. destruct c as [p pv r]; simpl in Hr; subst r.
  exists (run p pv w rs). split; [apply matches_Lit; exact Hw|apply run_rest].
Qed.

Lemma matches_Rep_from (g : bool) (min : nat) (s : cset) (w rs : str) (c : cursor) :
  rest c = w ++ rs -> Forall (fun x => in_cset s x = true) w ->
  min <= List.length w ->
  exists c', matches (Rep g min s) c c' /\ rest c' = rs.
Proof.
  intros Hr Hw Hmin. destruct c as [p pv r]; simpl in Hr; subst r.
  exists (run p pv w rs). split; [apply matches_Rep; assumption|apply run_rest].
Qed.

Lemma matches_Chr_from (a x : ascii) (rs : str) (c : cursor) :
  rest c = x :: rs -> ci_eqb a x = true ->
  exists c', matches (Chr a) c c' /\ rest c' = rs.
Proof.
  intros Hr Hx. destruct c as [p pv r]; simpl in Hr; subst r.
  eexists. split; [apply M_Chr; exact Hx|reflexivity].
Qed.

Lemma ci_eqb_refl (a : ascii) : ci_eqb a a = true.
Proof. unfold ci_eqb. apply Ascii.eqb_refl. Qed.

Lemma ci_eq_refl (w : str) : ci_eq w w.
Proof. induction w; constructor; [apply ci_eqb_refl|assumption]. Qed.

(** Only the lower-case image of the pattern matters. *)
Lemma ci_eq_lower (w s s' : str) :
  map lower_char s = map lower_char s' -> ci_eq w s -> ci_eq w s'.
Proof.
  intros E H. revert s' E.
  induction H as [|x a w s Hx H IH]; intros [|a' s'] E; simpl in E;
    try discriminate; constructor.
  - injection E as E1 E2. unfold ci_eqb in *. rewrite <- E1. exact Hx.
  - injection E as E1 E2. apply IH. exact E2.
Qed.

Lemma lower_of_upper_is_lower (x : ascii) :
  is_upper x = true -> is_lower (lower_char x) = true.
Proof.
  intros H. unfold lower_char. rewrite H. unfold is_upper, is_lower, between in *.
  apply andb_true_iff in H. destruct H as [H1 H2].
  apply Nat.leb_le in H1. apply Nat.leb_le in H2.
  rewrite nat_ascii_embedding by lia.
  apply andb_true_iff. split; apply Nat.leb_le; lia.
Qed.

(** A character that is not a letter is matched by itself only. *)
Lemma ci_eqb_nonletter (a x : ascii) :
  is_upper a = false -> is_lower a = false -> ci_eqb a x = true -> x = a.
Proof.
  intros Hu Hl H. unfold ci_eqb in H. apply Ascii.eqb_eq in H.
  unfold lower_char at 1 in H. rewrite Hu in H.
  destruct (is_upper x) eqn:Ex.
  - apply lower_of_upper_is_lower in Ex. rewrite <- H in Ex. congruence.
  - unfold lower_char in H. rewrite Ex in H. congruence.
Qed.

Lemma ci_eq_nonletters (w s : str) :
  Forall (fun a => is_upper a = false /\ is_lower a = false) s ->
  ci_eq w s -> w = s.
Proof.
  intros Hs H. induction H as [|x a w s Hx H IH]; [reflexivity|].
  inversion Hs as [|? ? [Hu Hl] Hs']; subst.
  f_equal; [eapply ci_eqb_nonletter; eassumption|apply IH; exact Hs'].
Qed.

Lemma matches_false_literals (l rs : str) (c : cursor) :
  rest c = l ++ rs -> false_literal l ->
  exists c', matches false_literals c c' /\ rest c' = rs.
Proof.
  intros Hr [H|[H|[H|[H|H]]]]; unfold false_literals; cbn [alts].
  - destruct (@matches_Lit_from _ _ _ c Hr H) as (c' & Hm & Hc).
    exists c'. split; [apply M_AltL; exact Hm|exact Hc].
  - subst l.
    destruct (@matches_Lit_from _ _ _ c Hr (ci_eq_refl _)) as (c' & Hm & Hc).
    exists c'. split; [apply M_AltR, M_AltL; exact Hm|exact Hc].
  - subst l.
    destruct (@matches_Lit_from _ _ _ c Hr (ci_eq_refl _)) as (c' & Hm & Hc).
    exists c'. split; [apply M_AltR, M_AltR, M_AltL; exact Hm|exact Hc].
  - subst l.
    destruct (@matches_Lit_from _ _ _ c Hr (ci_eq_refl _)) as (c' & Hm & Hc).
    exists c'. split; [apply M_AltR, M_AltR, M_AltR, M_AltL; exact Hm|exact Hc].
  - destruct (@matches_Lit_from _ _ _ c Hr H) as (c' & Hm & Hc).
    exists c'.
    split; [apply M_AltR, M_AltR, M_AltR, M_AltR, M_AltL; exact Hm|exact Hc].
Qed.

Lemma matches_false_literals_inv (c c' : cursor) :
  matches false_literals c c' ->
  exists l, false_literal l /\ rest c = l ++ rest c'.
Proof.
  unfold false_literals; cbn [alts]. intros H.
  repeat match goal with
         | H : matches (Alt _ _) _ _ |- _ =>
             apply matches_Alt_inv in H; destruct H as [H|H]
         end;
    apply matches_Lit_inv in H; destruct H as (l & Hl & Hr);
    exists l; (split; [|exact Hr]); unfold false_literal.
  - left. exact Hl.
  - right; left. apply ci_eq_nonletters; [|exact Hl].
    repeat constructor.
  - right; right; left. apply ci_eq_nonletters; [|exact Hl].
    repeat constructor.
  - right; right; right; left. apply ci_eq_nonletters; [|exact Hl].
    repeat constructor.
  - right; right; right; right. exact Hl.
  - right; right; right; right.
    apply (@ci_eq_lower l (lit "ABAP_FALSE")); [reflexivity|exact Hl].
Qed.

Lemma has_draft_check_search (stmt als : str) :
  _has_draft_check stmt als = true <->
  exists c0 c',
    reach (Cursor 0 None stmt) c0 /\ matches (draft_pattern als) c0 c'.
Proof.
  unfold _has_draft_check, re_search. split.
  - destruct (search_from (draft_pattern als) 0 None stmt) as [m|] eqn:E;
      [|discriminate].
    intros _. apply search_from_sound in E.
    destruct E as (c0 & c' & Hr & Hm & _). eauto.
  - intros (c0 & c' & Hr & Hm).
    pose proof (search_from_complete Hr Hm) as H. simpl in H.
    destruct (search_from (draft_pattern als) 0 None stmt); congruence.
Qed.

(** The draft check holds exactly when the statement carries a draft
    predicate for the alias. *)
Lemma has_draft_check_carries (stmt als : str) :
  _has_draft_check stmt als = true <-> carries_draft_predicate stmt als.
Proof.
  rewrite has_draft_check_search. split.
  - intros (c0 & c' & Hr & Hm).
    apply reach_inv in Hr. destruct Hr as (pre & Hpre). simpl in Hpre.
    unfold draft_pattern in Hm. cbn [seqs] in Hm.
    apply matches_Seq_inv in Hm. destruct Hm as (c1 & Ha & Hm).
    apply matches_Seq_inv in Hm. destruct Hm as (c2 & Hw1 & Hm).
    apply matches_Seq_inv in Hm. destruct Hm as (c3 & Ht & Hm).
    apply matches_Seq_inv in Hm. destruct Hm as (c4 & Hw2 & Hm).
    apply matches_Seq_inv in Hm. destruct Hm as (c5 & Hd & Hm).
    apply matches_Seq_inv in Hm. destruct Hm as (c6 & Hw3 & Hm).
    apply matches_Seq_inv in Hm. destruct Hm as (c7 & He & Hm).
    apply matches_Seq_inv in Hm. destruct Hm as (c8 & Hw4 & Hm).
    apply matches_Grp_inv in Hm. rename Hm into Hl.
    apply matches_Lit_inv in Ha. destruct Ha as (a & Ha & Ea).
    apply matches_Rep_inv in Hw1. destruct Hw1 as (w1 & Hw1 & _ & E1).
    apply matches_Chr_inv in Ht. destruct Ht as (t & Ht & Et).
    apply matches_Rep_inv in Hw2. destruct Hw2 as (w2 & Hw2 & _ & E2).
    apply matches_Lit_inv in Hd. destruct Hd as (d & Hd & Ed).
    apply matches_Rep_inv in Hw3. destruct Hw3 as (w3 & Hw3 & _ & E3).
    apply matches_Chr_inv in He. destruct He as (e & He & Ee).
    apply matches_Rep_inv in Hw4. destruct Hw4 as (w4 & Hw4 & _ & E4).
    apply matches_false_literals_inv in Hl. destruct Hl as (l & Hl & El).
    apply ci_eqb_nonletter in Ht; [|reflexivity|reflexivity].
    apply ci_eqb_nonletter in He; [|reflexivity|reflexivity].
    subst t e.
    exists pre, a, w1, w2, d, w3, w4, l, (rest c').
    split; [|repeat split; assumption].
    rewrite Hpre, Ea, E1, Et, E2, Ed, E3, Ee, E4, El. reflexivity.
  - intros (pre & a & w1 & w2 & d & w3 & w4 & l & post & E & Ha & Hd & Hl
            & H1 & H2 & H3 & H4).
    subst stmt.
    pose proof (reach_run pre (a ++ w1 ++ lit "~" ++ w2 ++ d ++ w3 ++ lit "="
                                 ++ w4 ++ l ++ post) 0 None) as Hr.
    set (c0 := run 0 None pre _) in Hr.
    assert (E0 : rest c0 = a ++ w1 ++ lit "~" ++ w2 ++ d ++ w3 ++ lit "="
                           ++ w4 ++ l ++ post) by apply run_rest.
    destruct (@matches_Lit_from _ _ _ c0 E0 Ha) as (c1 & M1 & E1).
    destruct (@matches_Rep_from true 0 Space _ _ c1 E1 H1 (Nat.le_0_l _))
      as (c2 & M2 & E2).
    destruct (@matches_Chr_from "~" _ _ c2 E2 eq_refl) as (c3 & M3 & E3).
    destruct (@matches_Rep_from true 0 Space _ _ c3 E3 H2 (Nat.le_0_l _))
      as (c4 & M4 & E4).
    destruct (@matches_Lit_from _ _ _ c4 E4 Hd) as (c5 & M5 & E5).
    destruct (@matches_Rep_from true 0 Space _ _ c5 E5 H3 (Nat.le_0_l _))
      as (c6 & M6 & E6).
    destruct (@matches_Chr_from "=" _ _ c6 E6 eq_refl) as (c7 & M7 & E7).
    destruct (@matches_Rep_from true 0 Space _ _ c7 E7 H4 (Nat.le_0_l _))
      as (c8 & M8 & E8).
    destruct (@matches_false_literals _ _ c8 E8 Hl) as (c9 & M9 & _).
    exists c0, c9. split; [exact Hr|].
    unfold draft_pattern; cbn [seqs].
    repeat (eapply M_Seq; [eassumption|]). apply M_Grp. exact M9.
Qed.

Lemma matches_Lit_app (z x : str) :
  forall c c',
    matches (Lit (z ++ x)) c c' ->
    exists c1, matches (Lit z) c c1 /\ matches (Lit x) c1 c'.
Proof.
  induction z as [|a z IH]; intros c c' H; simpl in *.
  - exists c. split; [apply M_Eps|exact H].
  - apply matches_Seq_inv in H. destruct H as (c0 & Ha & H).
    apply IH in H. destruct H as (c1 & Hz & Hx).
    exists c1. split; [eapply M_Seq; eassumption|exact Hx].
Qed.

Lemma draft_filter_missing_false (stmt : str) (tbls : list TableRef) :
  draft_filter_missing stmt tbls = false <->
  forall t, In t tbls -> is_vbrk_vbrp t = true ->
            _has_draft_check stmt (alias t) = true.
Proof.
  unfold draft_filter_missing.
  destruct (filter is_vbrk_vbrp tbls) as [|t0 ts] eqn:E.
  - split; [|reflexivity]. intros _ t Ht Hv.
    assert (Hin : In t (filter is_vbrk_vbrp tbls)) by (apply filter_In; auto).
    rewrite E in Hin. contradiction.
  - rewrite <- E.
    destruct (forallb (fun t => _has_draft_check stmt (alias t))
                (filter is_vbrk_vbrp tbls)) eqn:F.
    + split; [|reflexivity]. intros _ t Ht Hv.
      rewrite forallb_forall in F. apply F. apply filter_In. auto.
    + split; [discriminate|]. intros H. exfalso.
      assert (F' : forallb (fun t => _has_draft_check stmt (alias t))
                     (filter is_vbrk_vbrp tbls) = true).
      { apply forallb_forall. intros t Ht. apply filter_In in Ht.
        destruct Ht as [Ht Hv]. apply H; assumption. }
      congruence.
Qed.

Lemma no_reported_no_findings (unit : Unit) :
  reported_selects unit = [] -> findings (scan_unit unit) = None.
Proof. intros H. rewrite scan_unit_findings, H. reflexivity. Qed.

(** ** Table names come from the text *)

Lemma substr_nil (t : str) : substr [] t.
Proof. exists [], t. reflexivity. Qed.

Lemma substr_trans (a b c : str) : substr a b -> substr b c -> substr a c.
Proof.
  intros (p1 & q1 & ->) (p2 & q2 & ->). exists (p2 ++ p1), (q1 ++ q2).
  rewrite <- !app_assoc. reflexivity.
Qed.

Lemma substr_cons (w t : str) (c : ascii) : substr w t -> substr w (c :: t).
Proof. intros (p & q & ->). exists (c :: p), q. reflexivity. Qed.

Lemma slice_substr (t : str) (a b : nat) : substr (slice t a b) t.
Proof.
  unfold slice. exists (firstn a t), (skipn (b - a) (skipn a t)).
  rewrite firstn_skipn, firstn_skipn. reflexivity.
Qed.

Lemma group_substr (txt : str) (m : mobj) (g : string) :
  substr (or_str (group txt m g) []) txt.
Proof.
  unfold group. destruct (lookup_cap g (m_caps m)) as [[a b]|]; simpl.
  - destruct (slice txt a b) as [|c w] eqn:E; [apply substr_nil|].
    rewrite <- E. apply slice_substr.
  - apply substr_nil.
Qed.

Lemma pieces_substr (txt : str) :
  forall ms from p, In p (pieces txt from ms) -> substr p txt.
Proof.
  induction ms as [|m ms IH]; intros from p H; simpl in H.
  - destruct H as [<-|[]]. apply slice_substr.
  - destruct H as [<-|H]; [apply slice_substr|eapply IH; exact H].
Qed.

Lemma hd_re_split_substr (r : regex) (txt : str) :
  substr (hd [] (re_split r txt)) txt.
Proof.
  unfold re_split. destruct (pieces txt 0 (finditer r txt)) as [|p ps] eqn:E.
  - apply substr_nil.
  - simpl. apply (@pieces_substr txt (finditer r txt) 0). rewrite E.
    left. reflexivity.
Qed.

Lemma split_on_parts (sep : ascii) :
  forall s,
    exists p ps,
      split_on sep s = p :: ps /\ (exists post, s = p ++ post) /\
      forall q, In q ps -> substr q s.
Proof.
  induction s as [|c s (p & ps & E & (post & Hp) & Hps)]; simpl.
  - exists [], []. split; [reflexivity|]. split; [exists []; reflexivity|].
    intros q [].
  - destruct (c =? sep)%char.
    + exists [], (p :: ps). rewrite E. split; [reflexivity|].
      split; [exists (c :: s); reflexivity|].
      intros q [<-|Hq]; apply substr_cons.
      * exists [], post. exact Hp.
      * apply Hps. exact Hq.
    + rewrite E. exists (c :: p), ps. split; [reflexivity|].
      split; [exists post; simpl; rewrite <- Hp; reflexivity|].
      intros q Hq. apply substr_cons. apply Hps. exact Hq.
Qed.

Lemma split_on_substr (sep : ascii) (s p : str) :
  In p (split_on sep s) -> substr p s.
Proof.
  destruct (split_on_parts sep s) as (p0 & ps & E & (post & Hp) & Hps).
  rewrite E. intros [<-|H].
  - exists [], post. exact Hp.
  - apply Hps. exact H.
Qed.

Lemma lstrip_suffix (s : str) : exists pre, s = pre ++ lstrip s.
Proof.
  induction s as [|c s (pre & IH)]; simpl.
  - exists []. reflexivity.
  - destruct (is_space c).
    + exists (c :: pre). simpl. rewrite <- IH. reflexivity.
    + exists []. reflexivity.
Qed.

Lemma strip_substr (s : str) : substr (strip s) s.
Proof.
  unfold strip, rstrip.
  destruct (lstrip_suffix s) as (pre & Hpre).
  destruct (lstrip_suffix (rev (lstrip s))) as (pre' & Hpre').
  exists pre, (rev pre'). rewrite Hpre at 1. f_equal.
  rewrite <- rev_app_distr, <- Hpre', rev_involutive. reflexivity.
Qed.

Lemma table_of_candidate_substr (cand : str) (t : TableRef) :
  In t (table_of_candidate cand) ->
  exists w, substr w cand /\ table t = upper w.
Proof.
  unfold table_of_candidate.
  destruct (strip cand) as [|c0 cs] eqn:Es; [intros []|]. rewrite <- Es.
  destruct (re_match tbl_alias_re (strip cand)) as [m|]; [|intros []].
  destruct (upper (or_str (group (strip cand) m "1") [])) as [|x xs] eqn:E;
    [intros []|].
  intros [<-|[]]. simpl. rewrite <- E. eexists. split; [|reflexivity].
  eapply substr_trans; [apply group_substr|apply strip_substr].
Qed.

Lemma extract_tables_substr (from_clause : str) (t : TableRef) :
  In t (extract_tables from_clause) ->
  exists w, substr w from_clause /\ table t = upper w.
Proof.
  unfold extract_tables. intros H. apply in_flat_map in H.
  destruct H as (part & Hpart & H). apply in_flat_map in H.
  destruct H as (cand & Hcand & H).
  apply table_of_candidate_substr in H. destruct H as (w & Hw & Ht).
  exists w. split; [|exact Ht].
  eapply substr_trans; [exact Hw|].
  eapply substr_trans; [eapply split_on_substr; exact Hcand|].
  eapply substr_trans; [apply hd_re_split_substr|].
  unfold re_split in Hpart. eapply pieces_substr. exact Hpart.
Qed.

Lemma from_clauses_substr (txt fc : str) :
  In fc (from_clauses txt) -> substr fc txt.
Proof.
  unfold from_clauses. intros H. apply in_map_iff in H.
  destruct H as (m & <- & _). apply group_substr.
Qed.

Lemma reference_names_table (txt fc : str) :
  In fc (from_clauses txt) -> references_vbrk_vbrp fc ->
  names_table txt (lit "VBRK") \/ names_table txt (lit "VBRP").
Proof.
  intros Hfc (t & Ht & Hv). apply extract_tables_substr in Ht.
  destruct Ht as (w & Hw & Et). apply from_clauses_substr in Hfc.
  assert (Hs : substr w txt) by (eapply substr_trans; eassumption).
  destruct Hv as [Hv|Hv]; [left|right]; exists w; split; congruence.
Qed.

(** A text that spells a table name holds each of its letters, in some
    letter case. *)
Lemma names_table_letter (txt tbl : str) (c : ascii) :
  names_table txt tbl -> In c tbl ->
  exists x, In x txt /\ upper_char x = c.
Proof.
  intros (w & (pre & post & ->) & <-) Hc. unfold upper in Hc.
  apply in_map_iff in Hc. destruct Hc as (x & Hx & Hin).
  exists x. split; [|exact Hx].
  apply in_or_app. right. apply in_or_app. left. exact Hin.
Qed.

Lemma no_letter_no_name (txt tbl : str) (c : ascii) :
  In c tbl ->
  forallb (fun x => negb (upper_char x =? c)%char) txt = true ->
  ~ names_table txt tbl.
Proof.
  intros Hc Hall Hn.
  destruct (@names_table_letter _ _ _ Hn Hc) as (x & Hx & Hu).
  rewrite forallb_forall in Hall. apply Hall in Hx.
  rewrite Hu, Ascii.eqb_refl in Hx. discriminate.
Qed.

Lemma no_reference_no_selects (txt : str) :
  (forall fc, In fc (from_clauses txt) -> ~ references_vbrk_vbrp fc) ->
  find_selects txt = [].
Proof.
  unfold from_clauses, find_selects. intros H.
  induction (finditer SELECT_RE txt) as [|m ms IH]; [reflexivity|].
  simpl. rewrite IH.
  - rewrite app_nil_r. unfold select_of_match.
    destruct (filter is_vbrk_vbrp _) as [|t ts] eqn:E; [reflexivity|].
    exfalso. apply (H (or_str (group txt m "from_clause") [])).
    + left. reflexivity.
    + assert (Hin : In t (filter is_vbrk_vbrp
                            (extract_tables
                               (or_str (group txt m "from_clause") []))))
        by (rewrite E; left; reflexivity).
      apply filter_In in Hin. destruct Hin as [Hin Hv].
      exists t. split; [exact Hin|]. apply is_vbrk_vbrp_iff. exact Hv.
  - intros fc Hfc. apply H. right. exact Hfc.
Qed.

Lemma no_selects_no_findings (unit : Unit) :
  find_selects (src_of unit) = [] -> findings (scan_unit unit) = None.
Proof.
  intros H. apply no_reported_no_findings. unfold reported_selects.
  rewrite H. reflexivity.
Qed.

(** ** Every located span holds an INTO *)

Lemma reach_inv_pos (c c' : cursor) :
  reach c c' ->
  exists w, rest c = w ++ rest c' /\ pos c' = pos c + List.length w.
Proof.
  induction 1 as [c|p pv x rs c' H IH].
  - exists []. simpl. split; [reflexivity|lia].
  - destruct IH as (w & Hw & Hp). simpl in *. exists (x :: w).
    rewrite Hw. simpl. split; [reflexivity|lia].
Qed.

Lemma reach_start_rest (txt : str) (c : cursor) :
  reach (Cursor 0 None txt) c -> rest c = skipn (pos c) txt.
Proof.
  intros H. apply reach_inv_pos in H. destruct H as (w & Hw & Hp).
  simpl in *. subst txt. rewrite Hp.
  rewrite skipn_app, Nat.sub_diag, skipn_all. reflexivity.
Qed.

Lemma reach_slice (txt : str) (c c' : cursor) :
  reach (Cursor 0 None txt) c -> reach c c' ->
  rest c = slice txt (pos c) (pos c') ++ rest c'.
Proof.
  intros H0 H. apply reach_start_rest in H0. apply reach_inv_pos in H.
  destruct H as (w & Hw & Hp). unfold slice. rewrite <- H0, Hw, Hp.
  replace (pos c + List.length w - pos c) with (List.length w + 0) by lia.
  rewrite firstn_app_2. simpl. rewrite app_nil_r. reflexivity.
Qed.

Lemma select_re_needs_into (c c' : cursor) :
  matches SELECT_RE c c' ->
  exists ca cb w,
    reach c ca /\ reach cb c' /\ ci_eq w (lit "INTO") /\
    rest ca = w ++ rest cb.
Proof.
  unfold SELECT_RE. intros H.
  apply matches_Seq_inv in H. destruct H as (cz & H & Hdot).
  apply matches_Grp_inv in H. cbn [seqs] in H.
  apply matches_Seq_inv in H. destruct H as (c1 & H1 & H).
  apply matches_Seq_inv in H. destruct H as (c2 & H2 & H).
  apply matches_Seq_inv in H. destruct H as (c3 & H3 & H).
  apply matches_Seq_inv in H. destruct H as (c4 & H4 & H).
  apply matches_Seq_inv in H. destruct H as (c5 & H5 & H).
  apply matches_Seq_inv in H. destruct H as (c6 & H6 & H).
  apply matches_Seq_inv in H. destruct H as (c7 & H7 & H).
  apply matches_Seq_inv in H. destruct H as (c8 & H8 & H).
  apply matches_Seq_inv in H. destruct H as (c9 & H9 & H).
  apply matches_Seq_inv in H. destruct H as (c10 & H10 & H).
  apply matches_Seq_inv in H. destruct H as (c11 & Hinto & Htail).
  assert (Hpre : reach c c10).
  { apply matches_reach in H1, H2, H3, H4, H5, H6, H7, H8, H9, H10.
    reach_chain. }
  assert (Hpost : reach c11 c').
  { apply matches_reach in Htail, Hdot. reach_chain. }
  assert (Hi : exists cb w, matches (Lit (lit "INTO")) c10 cb /\ reach cb c11
                            /\ ci_eq w (lit "INTO") /\ rest c10 = w ++ rest cb).
  { apply matches_Alt_inv in Hinto. destruct Hinto as [Hi|Hi];
      cbn [seqs] in Hi; apply matches_Seq_inv in Hi;
      destruct Hi as (cb & Hl & Hrest);
      destruct (@matches_Lit_inv _ _ _ Hl) as (w & Hw & Er);
      exists cb, w; (split; [exact Hl|]);
      (split; [eapply matches_reach; exact Hrest|]); auto. }
  destruct Hi as (cb & w & _ & Hr & Hw & Er).
  exists c10, cb, w. split; [exact Hpre|]. split; [|auto].
  eapply reach_trans; eassumption.
Qed.

(** Every span that the locator yields holds an INTO. *)
Lemma located_span_has_into (txt : str) (m : mobj) :
  In m (finditer SELECT_RE txt) ->
  has_into (slice txt (m_start m) (m_end m)).
Proof.
  intros H. apply finditer_from_sound in H.
  destruct H as (c0 & c' & Hr & Hm & -> & ->).
  pose proof (matches_reach Hm) as Hspan.
  pose proof (reach_slice Hr Hspan) as Eall.
  apply select_re_needs_into in Hm.
  destruct Hm as (ca & cb & w & Hpre & Hpost & Hw & Ew).
  apply reach_inv in Hpre. destruct Hpre as (u & Eu).
  apply reach_inv in Hpost. destruct Hpost as (v & Ev).
  exists w. split; [|exact Hw]. exists u, v.
  rewrite Eu, Ew, Ev in Eall. rewrite !app_assoc in Eall.
  apply app_inv_tail in Eall. rewrite <- Eall, <- !app_assoc. reflexivity.
Qed.

Lemma substr_has_into (w t : str) : substr w t -> has_into w -> has_into t.
Proof.
  intros Hs (x & Hx & Hi). exists x. split; [|exact Hi].
  eapply substr_trans; eassumption.
Qed.

(** A text that holds no INTO has no located statement. *)
Lemma no_into_no_match (txt : str) :
  ~ has_into txt -> finditer SELECT_RE txt = [].
Proof.
  intros H. destruct (finditer SELECT_RE txt) as [|m ms] eqn:E; [reflexivity|].
  exfalso. apply H. eapply substr_has_into; [apply slice_substr|].
  apply (@located_span_has_into txt m). rewrite E. left. reflexivity.
Qed.

(** ** Evaluation of the locator on the example texts *)

Lemma find_selects_violation :
  find_selects stmt_violation =
  [ {| text := lit "SELECT a~vbeln FROM vbrk AS a INTO TABLE @lt_result";
       tables := [tref "VBRK" "A"];
       span := (0, 52) |} ].
Proof. vm_compute. reflexivity. Qed.

Lemma find_selects_partial :
  find_selects stmt_partial =
  [ {| text := lit "SELECT * FROM vbrk AS a JOIN vbrp AS b ON a~vbeln = b~vbeln INTO TABLE @lt WHERE a~draft = space";
       tables := [tref "VBRK" "A"; tref "VBRP" "B"];
       span := (0, 97) |} ].
Proof. vm_compute. reflexivity. Qed.

Lemma find_selects_default_alias :
  find_selects stmt_default_alias =
  [ {| text := lit "SELECT * FROM vbrk INTO TABLE @lt";
       tables := [tref "VBRK" "VBRK"];
       span := (0, 34) |} ].
Proof. vm_compute. reflexivity. Qed.

Lemma find_selects_suffix_alias :
  find_selects stmt_suffix_alias =
  [ {| text := lit "SELECT * FROM vbrk AS a JOIN vbrp AS ba ON a~vbeln = ba~vbeln INTO TABLE @lt WHERE ba~draft = space";
       tables := [tref "VBRK" "A"; tref "VBRP" "BA"];
       span := (0, 100) |} ].
Proof. vm_compute. reflexivity. Qed.


Lemma reported_selects_code (unit : Unit) (src : str) :
  code unit = Some src ->
  reported_selects unit =
  filter (fun sel => draft_filter_missing (text sel) (tables sel))
    (find_selects src).
Proof. intros H. unfold reported_selects, src_of. rewrite H. reflexivity. Qed.

(** ** The specification of the scanner *)

(** C1. A unit whose code is the statement
    [SELECT a~vbeln FROM vbrk AS a INTO TABLE @lt_result.], which holds no
    draft predicate, gets exactly one finding; its issue kind is
    [MissingDraftFilter], its severity [error], and the table list of its
    suggestion is [VBRK (A)]. *)
Theorem violation_detected (unit : Unit) :
  code unit = Some stmt_violation ->
  exists f sel,
    findings (scan_unit unit) = Some [f] /\
    issues_type f = Some (lit "MissingDraftFilter") /\
    severity f = Some (lit "error") /\
    find_selects stmt_violation = [sel] /\
    _has_draft_check (text sel) (lit "A") = false /\
    table_list (tables sel) = lit "VBRK (A)" /\
    suggestion f =
    Some (lit "For this SELECT on " ++ lit "VBRK (A)"
          ++ lit ", add draft filter condition(s) alias~draft = space for all VBRK/VBRP aliases involved.").
Proof.
  intros H. rewrite scan_unit_findings, (reported_selects_code _ H).
  rewrite find_selects_violation.
  eexists _, _. split; [vm_compute filter; reflexivity|].
  repeat split; vm_compute; reflexivity.
Qed.

Lemma violation_detected_witness :
  code (unit_of 0 stmt_violation) = Some stmt_violation /\
  exists f sel,
    findings (scan_unit (unit_of 0 stmt_violation)) = Some [f] /\
    issues_type f = Some (lit "MissingDraftFilter") /\
    severity f = Some (lit "error") /\
    find_selects stmt_violation = [sel] /\
    _has_draft_check (text sel) (lit "A") = false /\
    table_list (tables sel) = lit "VBRK (A)" /\
    suggestion f =
    Some (lit "For this SELECT on " ++ lit "VBRK (A)"
          ++ lit ", add draft filter condition(s) alias~draft = space for all VBRK/VBRP aliases involved.").
Proof.
  split; [reflexivity|].
  apply (@violation_detected (unit_of 0 stmt_violation)). reflexivity.
Defined.

(** C2. A unit whose code is the two-table join
    [SELECT * FROM vbrk AS a JOIN vbrp AS b ON a~vbeln = b~vbeln
     INTO TABLE @lt WHERE a~draft = space.] gets exactly one finding: alias
    [A] carries the predicate [a~draft = space], alias [B] carries none. *)
Theorem partial_compliance_flagged (unit : Unit) :
  code unit = Some stmt_partial ->
  exists f sel,
    findings (scan_unit unit) = Some [f] /\
    find_selects stmt_partial = [sel] /\
    tables sel = [tref "VBRK" "A"; tref "VBRP" "B"] /\
    _has_draft_check (text sel) (lit "A") = true /\
    _has_draft_check (text sel) (lit "B") = false /\
    draft_filter_missing (text sel) (tables sel) = true.
Proof.
  intros H. rewrite scan_unit_findings, (reported_selects_code _ H).
  rewrite find_selects_partial.
  eexists _, _. split; [vm_compute filter; reflexivity|].
  repeat split; vm_compute; reflexivity.
Qed.

Lemma partial_compliance_flagged_witness :
  code (unit_of 0 stmt_partial) = Some stmt_partial /\
  exists f sel,
    findings (scan_unit (unit_of 0 stmt_partial)) = Some [f] /\
    find_selects stmt_partial = [sel] /\
    tables sel = [tref "VBRK" "A"; tref "VBRP" "B"] /\
    _has_draft_check (text sel) (lit "A") = true /\
    _has_draft_check (text sel) (lit "B") = false /\
    draft_filter_missing (text sel) (tables sel) = true.
Proof.
  split; [reflexivity|].
  apply (@partial_compliance_flagged (unit_of 0 stmt_partial)). reflexivity.
Defined.



(** C4. The findings field of a scanned unit is either absent or a
    non-empty list, never the empty list: it is absent exactly when no
    located statement violates the rule. *)
Theorem findings_absent_or_nonempty (unit : Unit) :
  (findings (scan_unit unit) = None \/
   exists f fs, findings (scan_unit unit) = Some (f :: fs)) /\
  findings (scan_unit unit) =
  match reported_selects unit with
  | [] => None
  | sel :: sels =>
      Some (map (make_finding unit (src_of unit) (base_of unit)) (sel :: sels))
  end.
Proof.
  rewrite scan_unit_findings.
  destruct (reported_selects unit) as [|sel sels]; simpl.
  - split; [left|]; reflexivity.
  - split; [right; eexists _, _|]; reflexivity.
Qed.

(** C5. For [SELECT * FROM vbrk INTO TABLE @lt.] the resolver yields the
    pair (table [VBRK], alias [VBRK]), the alias being the table name, and
    the scanner flags the statement: no predicate [vbrk~draft = ...] is
    found in it. *)
Theorem default_alias_flagged (unit : Unit) :
  code unit = Some stmt_default_alias ->
  extract_tables (lit "vbrk") = [tref "VBRK" "VBRK"] /\
  exists f sel,
    findings (scan_unit unit) = Some [f] /\
    find_selects stmt_default_alias = [sel] /\
    tables sel = [tref "VBRK" "VBRK"] /\
    _has_draft_check (text sel) (lit "VBRK") = false.
Proof.
  intros H. split; [vm_compute; reflexivity|].
  rewrite scan_unit_findings, (reported_selects_code _ H).
  rewrite find_selects_default_alias.
  eexists _, _. split; [vm_compute filter; reflexivity|].
  repeat split; vm_compute; reflexivity.
Qed.

Lemma default_alias_flagged_witness :
  code (unit_of 0 stmt_default_alias) = Some stmt_default_alias /\
  extract_tables (lit "vbrk") = [tref "VBRK" "VBRK"] /\
  exists f sel,
    findings (scan_unit (unit_of 0 stmt_default_alias)) = Some [f] /\
    find_selects stmt_default_alias = [sel] /\
    tables sel = [tref "VBRK" "VBRK"] /\
    _has_draft_check (text sel) (lit "VBRK") = false.
Proof.
  split; [reflexivity|].
  apply (@default_alias_flagged (unit_of 0 stmt_default_alias)). reflexivity.
Defined.

(** A unit in whose code no located span has a FROM clause that resolves
    to VBRK or VBRP gets no findings: every located span is discarded
    before the audit, and the findings field is absent. *)
Lemma unreferenced_spans_discarded (unit : Unit) :
  (forall fc, In fc (from_clauses (src_of unit)) -> ~ references_vbrk_vbrp fc) ->
  find_selects (src_of unit) = [] /\ findings (scan_unit unit) = None.
Proof.
  intros H. apply no_reference_no_selects in H. split; [exact H|].
  apply no_selects_no_findings. exact H.
Qed.

Lemma unreferenced_spans_discarded_example :
  (forall fc, In fc (from_clauses (src_of (unit_of 100 code_other_table))) ->
              ~ references_vbrk_vbrp fc) /\
  find_selects (src_of (unit_of 100 code_other_table)) = [] /\
  findings (scan_unit (unit_of 100 code_other_table)) = None.
Proof.
  assert (H : forall fc,
             In fc (from_clauses (src_of (unit_of 100 code_other_table))) ->
             ~ references_vbrk_vbrp fc).
  { change (src_of (unit_of 100 code_other_table)) with code_other_table.
    replace (from_clauses code_other_table) with [lit "mara"; lit "t001"]
      by (vm_compute; reflexivity).
    intros fc [<-|[<-|[]]] (t & Ht & Hv).
    - replace (extract_tables (lit "mara")) with [tref "MARA" "MARA"] in Ht
        by (vm_compute; reflexivity).
      destruct Ht as [<-|[]]. destruct Hv; discriminate.
    - replace (extract_tables (lit "t001")) with [tref "T001" "T001"] in Ht
        by (vm_compute; reflexivity).
      destruct Ht as [<-|[]]. destruct Hv; discriminate. }
  split; [exact H|].
  exact (@unreferenced_spans_discarded (unit_of 100 code_other_table) H).
Defined.

(** C6. A unit in which no SELECT statement names VBRK or VBRP can still be
    reported.  In the text [SELECT * INTO TABLE lt_mara FROM mara.],
    [WRITE: / sy-dbcnt, vbrk-vbeln.], [SELECT * FROM t001 INTO TABLE lt_t001.]
    neither SELECT statement spells VBRK or VBRP, and on its own neither is
    kept by the locator.  In the whole text the FROM clause captured for the
    first statement runs across its period down to [t001] on the third
    line; its second comma-separated candidate starts with [vbrk], so the
    span resolves to MARA and VBRK, is kept, and the scanner reports the
    unit at line 1 with the table list [VBRK (VBRK)]. *)
Theorem select_on_other_tables_flagged :
  code_select_other_tables =
  lines [ lit "SELECT * INTO TABLE lt_mara FROM mara.";
          lit "WRITE: / sy-dbcnt, vbrk-vbeln.";
          lit "SELECT * FROM t001 INTO TABLE lt_t001." ] /\
  (forall s tbl,
      In s [ lit "SELECT * INTO TABLE lt_mara FROM mara.";
             lit "SELECT * FROM t001 INTO TABLE lt_t001." ] ->
      In tbl [ lit "VBRK"; lit "VBRP" ] ->
      ~ names_table s tbl) /\
  finditer SELECT_RE (lit "SELECT * INTO TABLE lt_mara FROM mara.") = [] /\
  from_clauses (lit "SELECT * FROM t001 INTO TABLE lt_t001.") = [lit "t001"] /\
  find_selects (lit "SELECT * FROM t001 INTO TABLE lt_t001.") = [] /\
  from_clauses code_select_other_tables =
  [ lines [ lit "mara."; lit "WRITE: / sy-dbcnt, vbrk-vbeln.";
            lit "SELECT * FROM t001" ] ] /\
  find_selects code_select_other_tables =
  [ {| text := slice code_select_other_tables 0 107;
       tables := [tref "MARA" "MARA"; tref "VBRK" "VBRK"];
       span := (0, 108) |} ] /\
  List.length code_select_other_tables = 108 /\
  exists f,
    findings (scan_unit (unit_of 0 code_select_other_tables)) = Some [f] /\
    issues_type f = Some (lit "MissingDraftFilter") /\
    starting_line f = Some 1%Z /\
    suggestion f =
    Some (lit "For this SELECT on " ++ lit "VBRK (VBRK)"
          ++ lit ", add draft filter condition(s) alias~draft = space for all VBRK/VBRP aliases involved.").
Proof.
  split; [reflexivity|]. split.
  - intros s tbl Hs Ht.
    apply (@no_letter_no_name s tbl "V"%char).
    + destruct Ht as [<-|[<-|[]]]; left; reflexivity.
    + destruct Hs as [<-|[<-|[]]]; vm_compute; reflexivity.
  - repeat split; try (vm_compute; reflexivity).
    eexists. split; [vm_compute; reflexivity|].
    repeat split; vm_compute; reflexivity.
Qed.

(** A text in which no stretch spells VBRK or VBRP, in any letter case, gets
    no findings. *)
Lemma text_without_table_names_not_flagged (unit : Unit) :
  ~ names_table (src_of unit) (lit "VBRK") ->
  ~ names_table (src_of unit) (lit "VBRP") ->
  findings (scan_unit unit) = None.
Proof.
  intros H1 H2. apply no_selects_no_findings, no_reference_no_selects.
  intros fc Hfc Href.
  destruct (reference_names_table _ Hfc Href); contradiction.
Qed.

(** C7. The starting line of every finding is the start line of the unit
    plus the 1-based line number, within the text of the unit, of the start
    of the span of the statement it reports (the number of newlines before
    that offset, plus 1).  So in a unit whose start line is 100 a flagged
    statement that begins on the fifth line, four newlines before it, is
    reported at line 105. *)
Theorem starting_line_of_finding (unit : Unit) :
  Forall2
    (fun f sel =>
       starting_line f =
       Some (base_of unit + line_number (src_of unit) (fst (span sel)))%Z)
    (findings_of (scan_unit unit)) (reported_selects unit) /\
  (start_line unit = Some 100%Z ->
   Forall2
     (fun f sel =>
        count_nl (firstn (fst (span sel)) (src_of unit)) = 4 ->
        starting_line f = Some 105%Z)
     (findings_of (scan_unit unit)) (reported_selects unit)).
Proof.
  rewrite findings_of_scan. split.
  - apply Forall2_map_l.
    intros sel _. unfold make_finding, line_number.
    destruct (span sel) as [s e]; simpl. rewrite slice_0. reflexivity.
  - intros H. apply Forall2_map_l.
    intros sel _ Hnl. unfold make_finding, base_of. rewrite H.
    destruct (span sel) as [s e]; simpl in *. rewrite slice_0, Hnl.
    reflexivity.
Qed.

Lemma starting_line_of_finding_witness :
  start_line (unit_of 100 code_fifth_line) = Some 100%Z /\
  map span (reported_selects (unit_of 100 code_fifth_line)) = [(68, 102)] /\
  count_nl (firstn 68 code_fifth_line) = 4 /\
  map starting_line (findings_of (scan_unit (unit_of 100 code_fifth_line)))
  = [Some 105%Z].
Proof.
  split; [reflexivity|]. split; [vm_compute; reflexivity|].
  split; [vm_compute; reflexivity|].
  pose proof (proj2 (starting_line_of_finding (unit_of 100 code_fifth_line))
                eq_refl) as H.
  destruct (findings_of (scan_unit (unit_of 100 code_fifth_line)))
    as [|f [|f' fs]] eqn:Ef; try (vm_compute in Ef; discriminate).
  replace (reported_selects (unit_of 100 code_fifth_line))
    with [ {| text := lit "SELECT * FROM vbrk INTO TABLE @lt";
              tables := [tref "VBRK" "VBRK"];
              span := (68, 102) |} ] in H by (vm_compute; reflexivity).
  inversion H as [|? ? ? ? Hf _]; subst. simpl.
  rewrite Hf; [reflexivity|]. vm_compute. reflexivity.
Defined.

(** C8. The ending line of every finding is its starting line plus the
    number of newlines of the snippet plus 1, where the snippet is the text
    from just after the nearest newline before the start of the match (or
    the start of the text) to just before the nearest newline at or after
    the end of the match (or the end of the text). *)
Theorem ending_line_of_finding (unit : Unit) :
  Forall2
    (fun f sel =>
       exists first snip,
         starting_line f = Some first /\
         ending_line f = Some (first + (Z.of_nat (count_nl snip) + 1))%Z /\
         snip = get_line_snippet (src_of unit) (fst (span sel)) (snd (span sel)) /\
         line_window (src_of unit) (fst (span sel)) (snd (span sel)) snip /\
         snippet f = Some (escape_nl snip))
    (findings_of (scan_unit unit)) (reported_selects unit).
Proof.
  rewrite findings_of_scan. apply Forall2_map_l.
  intros sel Hsel. apply reported_selects_In in Hsel. destruct Hsel as [Hsel _].
  apply find_selects_span in Hsel. unfold make_finding.
  destruct (span sel) as [s e]; simpl in *.
  eexists _, _. split; [reflexivity|]. split; [reflexivity|].
  split; [reflexivity|]. split; [|reflexivity].
  apply get_line_snippet_window. lia.
Qed.

(** C9. A statement without an INTO target is not located on its own, but
    it is located, and flagged, when a later statement supplies an INTO:
    in the text [SELECT * FROM vbrk WHERE vbeln = lv_vbeln.], [ENDSELECT.],
    [SELECT * FROM mara INTO TABLE @lt_mara.] the span of the first
    statement runs across both terminators up to the end of the third
    line, its FROM clause resolves to VBRK, and the scanner reports it at
    line 1. *)
Theorem statement_without_into_flagged :
  finditer SELECT_RE (lit "SELECT * FROM vbrk WHERE vbeln = lv_vbeln.") = [] /\
  find_selects code_no_into_then_into =
  [ {| text := slice code_no_into_then_into 0 92;
       tables := [tref "VBRK" "VBRK"];
       span := (0, 93) |} ] /\
  List.length code_no_into_then_into = 93 /\
  map starting_line (findings_of (scan_unit (unit_of 0 code_no_into_then_into)))
  = [Some 1%Z].
Proof. repeat split; vm_compute; reflexivity. Qed.

(** C10. The draft check does not anchor the alias at a word boundary: when
    a statement carries a draft predicate for an alias [y], the check holds
    for every alias [x] that is a suffix of [y].  So the statement with
    aliases [A] and [BA] whose only draft predicate is [ba~draft = space]
    passes the check for both aliases (the match for [A] starts inside
    [ba]; anchored at a word boundary it would find nothing) and the
    scanner reports nothing for it. *)
Theorem alias_suffix_passes :
  (forall stmt x y z,
      y = z ++ x ->
      carries_draft_predicate stmt y -> _has_draft_check stmt x = true) /\
  (forall stmt x y z,
      y = z ++ x ->
      _has_draft_check stmt y = true -> _has_draft_check stmt x = true) /\
  (forall unit,
      code unit = Some stmt_suffix_alias ->
      exists sel m,
        find_selects stmt_suffix_alias = [sel] /\
        tables sel = [tref "VBRK" "A"; tref "VBRP" "BA"] /\
        re_search (Seq Bnd (draft_pattern (lit "A"))) (text sel) = None /\
        re_search (draft_pattern (lit "A")) (text sel) = Some m /\
        m_start m = 84 /\ slice (text sel) 83 100 = lit "ba~draft = space" /\
        _has_draft_check (text sel) (lit "BA") = true /\
        _has_draft_check (text sel) (lit "A") = true /\
        draft_filter_missing (text sel) (tables sel) = false /\
        findings (scan_unit unit) = None).
Proof.
  assert (Hsuffix : forall stmt x y z,
             y = z ++ x ->
             _has_draft_check stmt y = true -> _has_draft_check stmt x = true).
  { intros stmt x y z -> H. apply has_draft_check_search in H.
    destruct H as (c0 & c' & Hr & Hm).
    unfold draft_pattern in Hm. cbn [seqs] in Hm.
    apply matches_Seq_inv in Hm. destruct Hm as (c1 & Hl & Hm).
    apply matches_Lit_app in Hl. destruct Hl as (c2 & Hz & Hx).
    apply has_draft_check_search. exists c2, c'. split.
    - eapply reach_trans; [exact Hr|]. eapply matches_reach. exact Hz.
    - unfold draft_pattern. cbn [seqs]. eapply M_Seq; eassumption. }
  split; [|split; [exact Hsuffix|]].
  - intros stmt x y z E H. apply (Hsuffix stmt x y z E).
    apply has_draft_check_carries. exact H.
  - intros unit H. rewrite find_selects_suffix_alias.
    eexists _, _. split; [reflexivity|].
    split; [reflexivity|]. split; [vm_compute; reflexivity|].
    split; [vm_compute; reflexivity|].
    split; [reflexivity|]. split; [vm_compute; reflexivity|].
    split; [vm_compute; reflexivity|]. split; [vm_compute; reflexivity|].
    split; [vm_compute; reflexivity|].
    apply no_reported_no_findings. rewrite (reported_selects_code _ H).
    rewrite find_selects_suffix_alias. vm_compute. reflexivity.
Qed.

Lemma alias_suffix_passes_witness :
  _has_draft_check (lit "ba~draft = space") (lit "BA") = true /\
  _has_draft_check (lit "ba~draft = space") (lit "A") = true /\
  code (unit_of 0 stmt_suffix_alias) = Some stmt_suffix_alias /\
  findings (scan_unit (unit_of 0 stmt_suffix_alias)) = None.
Proof.
  assert (H : _has_draft_check (lit "ba~draft = space") (lit "BA") = true)
    by (vm_compute; reflexivity).
  split; [exact H|].
  split; [exact (proj1 (proj2 alias_suffix_passes) (lit "ba~draft = space")
                   (lit "A") (lit "BA") (lit "B") eq_refl H)|].
  split; [reflexivity|].
  destruct (proj2 (proj2 alias_suffix_passes) (unit_of 0 stmt_suffix_alias)
              eq_refl)
    as (sel & m & _ & _ & _ & _ & _ & _ & _ & _ & _ & Hf).
  exact Hf.
Defined.

(** ** Further properties of the scanner *)

Lemma make_finding_with_findings (unit : Unit) (fs : option (list Finding))
    (src : str) (base : Z) (sel : Select) :
  make_finding (with_findings unit fs) src base sel =
  make_finding unit src base sel.
Proof. unfold make_finding. destruct (span sel); reflexivity. Qed.

Lemma with_findings_twice (unit : Unit) (fs gs : option (list Finding)) :
  with_findings (with_findings unit fs) gs = with_findings unit gs.
Proof. reflexivity. Qed.

Lemma scan_unit_with_findings (unit : Unit) (fs : option (list Finding)) :
  scan_unit (with_findings unit fs) = scan_unit unit.
Proof.
  unfold scan_unit. cbn [code start_line with_findings].
  rewrite !scan_loop_spec. cbn [app].
  rewrite (map_ext _ _ (make_finding_with_findings unit fs _ _)).
  reflexivity.
Qed.

Lemma scan_unit_idempotent_aux (unit : Unit) :
  scan_unit (scan_unit unit) = scan_unit unit /\
  forall fs, scan_unit (with_findings unit fs) = scan_unit unit.
Proof.
  split; [|apply scan_unit_with_findings].
  unfold scan_unit at 2. apply scan_unit_with_findings.
Qed.

(** X1. Scanning keeps every field of the unit but [findings], takes no
    account of findings the unit already carries, and scanning a scanned
    unit again changes nothing. *)
Theorem scan_unit_idempotent (unit : Unit) :
  scan_unit (scan_unit unit) = scan_unit unit /\
  (forall fs, scan_unit (with_findings unit fs) = scan_unit unit) /\
  scan_unit unit = with_findings unit (findings (scan_unit unit)).
Proof.
  split; [|split].
  - unfold scan_unit at 2. apply scan_unit_with_findings.
  - apply scan_unit_with_findings.
  - reflexivity.
Qed.

Lemma findings_Forall (unit : Unit) (P : Finding -> Prop) :
  (forall sel, In sel (reported_selects unit) ->
               P (make_finding unit (src_of unit) (base_of unit) sel)) ->
  Forall P (findings_of (scan_unit unit)).
Proof.
  intros H. rewrite findings_of_scan. apply Forall_forall.
  intros f Hf. apply in_map_iff in Hf. destruct Hf as (sel & <- & Hsel).
  apply H. exact Hsel.
Qed.

Lemma join_nonempty (sep p : str) (ps : list str) :
  p <> [] -> join sep (p :: ps) <> [].
Proof.
  intros Hp. destruct ps as [|q ps]; simpl; [exact Hp|].
  destruct p; [congruence|discriminate].
Qed.

Lemma find_selects_has_table (txt : str) (sel : Select) :
  In sel (find_selects txt) -> filter is_vbrk_vbrp (tables sel) <> [].
Proof.
  unfold find_selects. intros H. apply in_flat_map in H.
  destruct H as (m & _ & H). unfold select_of_match in H.
  destruct (filter is_vbrk_vbrp _) as [|t ts] eqn:E; [contradiction|].
  destruct H as [<-|[]]. simpl. rewrite E. discriminate.
Qed.

Lemma table_list_nonempty (tbls : list TableRef) :
  filter is_vbrk_vbrp tbls <> [] -> table_list tbls <> [].
Proof.
  unfold table_list. destruct (filter is_vbrk_vbrp tbls) as [|t ts];
    [congruence|]. intros _. simpl map. apply join_nonempty.
  intros E. apply (f_equal (@List.length _)) in E.
  rewrite !length_app in E. simpl in E. lia.
Qed.

(** X2. Every finding has the issue kind [MissingDraftFilter], the severity
    [error] and the fixed message, repeats the program name, include name,
    kind and block name of its unit, and its suggestion names a non-empty
    list of tables. *)
Theorem finding_fixed_fields (unit : Unit) :
  Forall
    (fun f =>
       issues_type f = Some (lit "MissingDraftFilter") /\
       severity f = Some (lit "error") /\
       message f = Some msg /\
       prog_name f = Some (pgm_name unit) /\
       incl_name f = Some (inc_name unit) /\
       types f = Some (type unit) /\
       blockname f = name unit /\
       exists tl,
         tl <> [] /\
         suggestion f =
         Some (lit "For this SELECT on " ++ tl
               ++ lit ", add draft filter condition(s) "
               ++ lit "alias~draft = space for all VBRK/VBRP aliases involved."))
    (findings_of (scan_unit unit)).
Proof.
  apply findings_Forall. intros sel Hsel.
  apply reported_selects_In in Hsel. destruct Hsel as [Hsel _].
  apply find_selects_has_table, table_list_nonempty in Hsel.
  unfold make_finding. destruct (span sel) as [s e]; simpl.
  repeat (split; [reflexivity|]).
  exists (table_list (tables sel)). split; [exact Hsel|reflexivity].
Qed.

Lemma count_nl_app (a b : str) : count_nl (a ++ b) = count_nl a + count_nl b.
Proof. unfold count_nl. rewrite filter_app, length_app. reflexivity. Qed.

Lemma count_nl_zero (s : str) : ~ In nl s -> count_nl s = 0.
Proof.
  unfold count_nl. induction s as [|c s IH]; intros H; simpl; [reflexivity|].
  destruct (c =? nl)%char eqn:E.
  - apply Ascii.eqb_eq in E. subst c. exfalso. apply H. left. reflexivity.
  - apply IH. intros Hin. apply H. right. exact Hin.
Qed.

Lemma firstn_plus (n k : nat) (l : str) :
  firstn (n + k) l = firstn n l ++ firstn k (skipn n l).
Proof.
  revert l. induction n as [|n IH]; intros l; simpl; [reflexivity|].
  destruct l as [|c l]; simpl.
  - destruct k; reflexivity.
  - rewrite IH. reflexivity.
Qed.

Lemma slice_split (t : str) (a m b : nat) :
  a <= m <= b -> slice t a b = slice t a m ++ slice t m b.
Proof.
  intros H. unfold slice.
  replace (b - a) with ((m - a) + (b - m)) by lia.
  rewrite firstn_plus, skipn_skipn.
  replace (m - a + a) with m by lia. reflexivity.
Qed.

Lemma in_slice (t : str) (c : ascii) :
  forall a b, In c (slice t a b) ->
              exists i, a <= i < b /\ nth_error t i = Some c.
Proof.
  unfold slice. induction t as [|x t IH]; intros a b H.
  - rewrite skipn_nil, firstn_nil in H. contradiction.
  - destruct a as [|a].
    + simpl in H. destruct b as [|b]; simpl in H; [contradiction|].
      destruct H as [->|H].
      * exists 0. split; [lia|reflexivity].
      * specialize (IH 0 b). simpl in IH. rewrite Nat.sub_0_r in IH.
        destruct (IH H) as (i & Hi & Hn). exists (S i). split; [lia|exact Hn].
    + simpl in H. replace (b - S a) with (b - 1 - a) in H by lia.
      destruct (IH a (b - 1) H) as (i & Hi & Hn).
      exists (S i). split; [lia|exact Hn].
Qed.

(** The snippet is the statement with the rest of its first and last line
    around it, and these rests hold no newline. *)
Lemma snippet_around_span (txt : str) (s e : nat) :
  s <= e <= List.length txt ->
  exists pre post,
    get_line_snippet txt s e = pre ++ slice txt s e ++ post /\
    ~ In nl pre /\ ~ In nl post.
Proof.
  intros H.
  destruct (@get_line_snippet_window txt s e (proj2 H))
    as (a & b & -> & Ha & _ & Hpre & Hb & _ & Hpost).
  exists (slice txt a s), (slice txt e b). split; [|split].
  - rewrite (@slice_split txt a s b) by lia.
    rewrite (@slice_split txt s e b) by lia. reflexivity.
  - intros Hin. apply in_slice in Hin. destruct Hin as (i & Hi & Hn).
    exact (Hpre i Hi Hn).
  - intros Hin. apply in_slice in Hin. destruct Hin as (i & Hi & Hn).
    exact (Hpost i Hi Hn).
Qed.

(** X3. For every finding, with [s, e) the span of its statement: the
    snippet is the statement text with newline-free text before and after;
    the ending line is the starting line plus 1 plus the number of newlines
    inside the statement, so it lies past the starting line; and the
    starting line lies past the start line of the unit. *)
Theorem finding_line_range (unit : Unit) :
  Forall2
    (fun f sel =>
       exists first last pre post,
         starting_line f = Some first /\ ending_line f = Some last /\
         get_line_snippet (src_of unit) (fst (span sel)) (snd (span sel)) =
         pre ++ slice (src_of unit) (fst (span sel)) (snd (span sel)) ++ post /\
         ~ In nl pre /\ ~ In nl post /\
         (last = first + 1
                 + Z.of_nat (count_nl (slice (src_of unit) (fst (span sel))
                                         (snd (span sel)))))%Z /\
         (base_of unit < first < last)%Z)
    (findings_of (scan_unit unit)) (reported_selects unit).
Proof.
  rewrite findings_of_scan. apply Forall2_map_l.
  intros sel Hsel. apply reported_selects_In in Hsel. destruct Hsel as [Hsel _].
  apply find_selects_span in Hsel. unfold make_finding.
  destruct (span sel) as [s e]; simpl in *.
  destruct (@snippet_around_span (src_of unit) s e) as (pre & post & E & H1 & H2);
    [lia|].
  eexists _, _, pre, post. split; [reflexivity|]. split; [reflexivity|].
  split; [exact E|]. split; [exact H1|]. split; [exact H2|].
  rewrite E, !count_nl_app, (@count_nl_zero _ H1), (@count_nl_zero _ H2). lia.
Qed.

Lemma escape_nl_no_newline (s : str) : ~ In nl (escape_nl s).
Proof.
  unfold escape_nl. intros H. apply in_flat_map in H.
  destruct H as (c & _ & H). destruct (c =? nl)%char eqn:E.
  - simpl in H. destruct H as [H|[H|[]]]; discriminate.
  - destruct H as [->|[]]. rewrite Ascii.eqb_refl in E. discriminate.
Qed.

Lemma escape_nl_length (s : str) :
  List.length (escape_nl s) = List.length s + count_nl s.
Proof.
  unfold escape_nl, count_nl.
  induction s as [|c s IH]; cbn [flat_map filter]; [reflexivity|].
  rewrite length_app, IH. destruct (c =? nl)%char; simpl; lia.
Qed.

(** The replacement of newlines, read on the lines of a text: a text is
    its newline-free lines joined by newlines, and its escaped form is the
    same lines joined by the two characters backslash and [n]. *)
Lemma escape_nl_lines (s : str) :
  exists ls,
    ls <> [] /\ Forall (fun l => ~ In nl l) ls /\
    s = join [nl] ls /\ escape_nl s = join [backslash; "n"%char] ls.
Proof.
  induction s as [|c s (ls & Hne & Hall & Es & Ee)].
  - exists [[]]. split; [discriminate|]. split; [|split; reflexivity].
    constructor; [intros []|constructor].
  - destruct ls as [|p ps]; [contradiction|].
    assert (Ec : escape_nl (c :: s) =
                 (if (c =? nl)%char then [backslash; "n"%char] else [c])
                 ++ escape_nl s) by reflexivity.
    destruct (c =? nl)%char eqn:E.
    + apply Ascii.eqb_eq in E. subst c. exists ([] :: p :: ps).
      split; [discriminate|]. split; [constructor; [intros []|exact Hall]|].
      split.
      * change (join [nl] ([] :: p :: ps)) with (nl :: join [nl] (p :: ps)).
        rewrite <- Es. reflexivity.
      * rewrite Ec, Ee. reflexivity.
    + exists ((c :: p) :: ps).
      split; [discriminate|].
      pose proof (Forall_inv Hall) as Hp.
      pose proof (Forall_inv_tail Hall) as Hps.
      split.
      { constructor; [|exact Hps]. intros [Hc|Hc]; [|exact (Hp Hc)].
        subst c. rewrite Ascii.eqb_refl in E. discriminate. }
      split.
      * rewrite Es. destruct ps; reflexivity.
      * rewrite Ec, Ee. destruct ps; reflexivity.
Qed.

Lemma escape_nl_id (s : str) : ~ In nl s -> escape_nl s = s.
Proof.
  unfold escape_nl. induction s as [|c s IH]; intros H; [reflexivity|].
  cbn [flat_map]. destruct (c =? nl)%char eqn:E.
  - apply Ascii.eqb_eq in E. subst c. exfalso. apply H. left. reflexivity.
  - simpl. f_equal. apply IH. intros Hin. apply H. right. exact Hin.
Qed.

(** X4. The snippet of every finding is a single line: where the raw
    snippet is its newline-free lines joined by newlines, the stored
    snippet is the same lines, unchanged and in order, joined by the two
    characters backslash and [n].  So it holds no newline character, its
    length is the raw length plus the number of newlines, and a raw snippet
    of one line is stored as it is. *)
Theorem finding_snippet_single_line (unit : Unit) :
  Forall2
    (fun f sel =>
       exists raw snip ls,
         raw = get_line_snippet (src_of unit) (fst (span sel))
                 (snd (span sel)) /\
         snippet f = Some snip /\
         ls <> [] /\ Forall (fun l => ~ In nl l) ls /\
         raw = join [nl] ls /\
         snip = join [backslash; "n"%char] ls /\
         ~ In nl snip /\
         List.length snip = List.length raw + count_nl raw /\
         (~ In nl raw -> snip = raw))
    (findings_of (scan_unit unit)) (reported_selects unit).
Proof.
  rewrite findings_of_scan. apply Forall2_map_l.
  intros sel _. unfold make_finding. destruct (span sel) as [s e]; simpl.
  destruct (escape_nl_lines (get_line_snippet (src_of unit) s e))
    as (ls & Hne & Hall & Es & Ee).
  exists (get_line_snippet (src_of unit) s e),
         (escape_nl (get_line_snippet (src_of unit) s e)), ls.
  split; [reflexivity|]. split; [reflexivity|]. split; [exact Hne|].
  split; [exact Hall|]. split; [exact Es|]. split; [exact Ee|].
  split; [apply escape_nl_no_newline|]. split; [apply escape_nl_length|].
  apply escape_nl_id.
Qed.

Lemma finditer_short (r : regex) (txt : str) :
  List.length txt < min_len r -> finditer r txt = [].
Proof.
  intros H. destruct (finditer r txt) as [|m ms] eqn:E; [reflexivity|].
  exfalso.
  assert (Hin : In m (finditer r txt)) by (rewrite E; left; reflexivity).
  apply finditer_from_sound in Hin.
  destruct Hin as (c0 & c' & Hr & Hm & _).
  pose proof (matches_min_len Hm) as Hlen.
  apply matches_reach, reach_bounds in Hm. apply reach_bounds in Hr.
  simpl in *. lia.
Qed.

Lemma matches_Look_inv (r : regex) (c c' : cursor) :
  matches (Look r) c c' -> c' = c /\ exists c1, matches r c c1.
Proof. intros H. inversion H; subst. eauto. Qed.

Lemma letter_i_not_space (x : ascii) :
  ci_eqb "I" x = true -> in_cset Space x = false.
Proof. destruct x as [[] [] [] [] [] [] [] []]; vm_compute; congruence. Qed.

Ltac least_span H n :=
  let L := fresh "L" in
  pose proof (matches_min_len H) as L; change (min_len _) with n in L.

(** A match of [SELECT_RE] spans at least 22 characters: the parts of the
    pattern consume 21 between them, and the lookahead asks for a blank
    where the INTO of the pattern cannot yet start, so that the segment
    [middle] holds at least one character. *)
Lemma select_re_min_span (c c' : cursor) :
  matches SELECT_RE c c' -> pos c + 22 <= pos c'.
Proof.
  unfold SELECT_RE. intros H.
  apply matches_Seq_inv in H. destruct H as (cz & H & Hdot).
  apply matches_Grp_inv in H. cbn [seqs] in H.
  apply matches_Seq_inv in H. destruct H as (c1 & H1 & H).
  apply matches_Seq_inv in H. destruct H as (c2 & H2 & H).
  apply matches_Seq_inv in H. destruct H as (c3 & H3 & H).
  apply matches_Seq_inv in H. destruct H as (c4 & H4 & H).
  apply matches_Seq_inv in H. destruct H as (c5 & H5 & H).
  apply matches_Seq_inv in H. destruct H as (c6 & H6 & H).
  apply matches_Seq_inv in H. destruct H as (c7 & H7 & H).
  apply matches_Seq_inv in H. destruct H as (c8 & H8 & H).
  apply matches_Seq_inv in H. destruct H as (c9 & H9 & H).
  apply matches_Seq_inv in H. destruct H as (c10 & H10 & H).
  apply matches_Seq_inv in H. destruct H as (c11 & Hinto & Htail).
  apply matches_Look_inv in H9. destruct H9 as (-> & cl & Hlook).
  apply matches_Seq_inv in Hlook. destruct Hlook as (cs & Hsp & _).
  apply matches_Rep_inv in Hsp. destruct Hsp as (ws & Hws & Hlen & Ews).
  assert (Hi : exists w cb, ci_eq w (lit "INTO") /\ rest c10 = w ++ rest cb).
  { apply matches_Alt_inv in Hinto. destruct Hinto as [Hi|Hi];
      cbn [seqs] in Hi; apply matches_Seq_inv in Hi;
      destruct Hi as (cb & Hl & _);
      destruct (@matches_Lit_inv _ _ _ Hl) as (w & Hw & Er);
      exists w, cb; auto. }
  destruct Hi as (w & cb & Hw & Ew).
  pose proof (matches_reach H10) as Hm. apply reach_inv_pos in Hm.
  destruct Hm as (wm & Ewm & Hpm).
  assert (Hwm : 1 <= List.length wm).
  { destruct wm as [|x wm]; [exfalso|simpl; lia].
    simpl in Ewm. rewrite Ewm, Ew in Ews.
    inversion Hw as [|i a w' s' Hi Hw' E1 E2]; subst.
    destruct ws as [|x ws]; [simpl in Hlen; lia|].
    inversion Hws as [|? ? Hx _]; subst.
    simpl in Ews. injection Ews as Ex _. subst x.
    apply letter_i_not_space in Hi. congruence. }
  least_span H1 6. least_span H2 1. least_span H3 0. least_span H4 1.
  least_span H5 1. least_span H6 4. least_span H7 1. least_span H8 0.
  least_span Hinto 6. least_span Htail 0. least_span Hdot 1.
  lia.
Qed.

Lemma finditer_select_short (txt : str) :
  List.length txt < 22 -> finditer SELECT_RE txt = [].
Proof.
  intros H. destruct (finditer SELECT_RE txt) as [|m ms] eqn:E; [reflexivity|].
  exfalso.
  assert (Hin : In m (finditer SELECT_RE txt)) by (rewrite E; left; reflexivity).
  apply finditer_from_sound in Hin.
  destruct Hin as (c0 & c' & Hr & Hm & _).
  pose proof (select_re_min_span Hm) as Hlen.
  apply matches_reach, reach_bounds in Hm. apply reach_bounds in Hr.
  simpl in *. lia.
Qed.

(** X5. A unit whose code is absent, empty or shorter than 22 characters
    has no located statement and gets no findings.  The bound is exact:
    the 22 characters [SELECT * FROM  INTO x.], with two blanks after FROM,
    are matched by [SELECT_RE] from the first to the last. *)
Theorem short_code_not_flagged (unit : Unit) :
  List.length (src_of unit) < 22 ->
  (finditer SELECT_RE (src_of unit) = [] /\
   findings (scan_unit unit) = None) /\
  (List.length (lit "SELECT * FROM  INTO x.") = 22 /\
   map mspan (finditer SELECT_RE (lit "SELECT * FROM  INTO x.")) = [(0, 22)]).
Proof.
  intros H. split; [|split; vm_compute; reflexivity].
  assert (E : finditer SELECT_RE (src_of unit) = [])
    by (apply finditer_select_short; exact H).
  split; [exact E|]. apply no_selects_no_findings.
  unfold find_selects. rewrite E. reflexivity.
Qed.

Lemma short_code_not_flagged_witness :
  List.length (src_of (unit_of 7 (lit "SELECT * FROM INTO x."))) = 21 /\
  finditer SELECT_RE (src_of (unit_of 7 (lit "SELECT * FROM INTO x."))) = [] /\
  findings (scan_unit (unit_of 7 (lit "SELECT * FROM INTO x."))) = None.
Proof.
  assert (H : List.length (src_of (unit_of 7 (lit "SELECT * FROM INTO x."))) < 22)
    by (vm_compute; repeat constructor).
  split; [reflexivity|].
  exact (proj1 (@short_code_not_flagged
                  (unit_of 7 (lit "SELECT * FROM INTO x.")) H)).
Defined.

Lemma make_finding_shift (unit : Unit) (src : str) (b : Z) (sel : Select) :
  make_finding (set_start (Some b) unit) src b sel =
  shift_finding b (make_finding (set_start None unit) src 0 sel).
Proof.
  unfold make_finding, shift_finding. destruct (span sel) as [s e]; simpl.
  f_equal; f_equal; lia.
Qed.

(** X6. The start line of the unit only moves the findings: with start
    line [b] the scanner reports the findings it reports without a start
    line, their starting and ending lines raised by [b]; and an absent
    start line counts as 0. *)
Theorem start_line_shifts_findings (unit : Unit) (b : Z) :
  findings_of (scan_unit (set_start (Some b) unit)) =
  map (shift_finding b) (findings_of (scan_unit (set_start None unit))) /\
  findings (scan_unit (set_start None unit)) =
  findings (scan_unit (set_start (Some 0%Z) unit)).
Proof.
  split.
  - rewrite !findings_of_scan, map_map.
    change (reported_selects (set_start (Some b) unit))
      with (reported_selects (set_start None unit)).
    apply map_ext. intros sel. apply make_finding_shift.
  - rewrite !scan_unit_findings.
    change (reported_selects (set_start (Some 0%Z) unit))
      with (reported_selects (set_start None unit)).
    replace (map (make_finding (set_start (Some 0%Z) unit)
                    (src_of (set_start (Some 0%Z) unit))
                    (base_of (set_start (Some 0%Z) unit)))
               (reported_selects (set_start None unit)))
      with (map (make_finding (set_start None unit)
                   (src_of (set_start None unit))
                   (base_of (set_start None unit)))
              (reported_selects (set_start None unit))); [reflexivity|].
    apply map_ext. intros sel. unfold make_finding.
    destruct (span sel); reflexivity.
Qed.

Lemma remediate_loop_spec (units : list Unit) :
  forall results,
    remediate_loop units results =
    results ++ filter has_findings (map scan_unit units).
Proof.
  induction units as [|u units IH]; intros results;
    cbn [remediate_loop map filter].
  - rewrite app_nil_r. reflexivity.
  - unfold has_findings at 1.
    destruct (findings (scan_unit u)) as [[|f fs]|]; rewrite IH;
      [reflexivity|rewrite <- app_assoc; reflexivity|reflexivity].
Qed.

Lemma remediate_array_filter (units : list Unit) :
  remediate_array units = filter has_findings (map scan_unit units).
Proof. unfold remediate_array. rewrite remediate_loop_spec. reflexivity. Qed.

Lemma has_findings_reported (unit : Unit) :
  has_findings (scan_unit unit) = true <-> reported_selects unit <> [].
Proof.
  unfold has_findings. rewrite scan_unit_findings.
  destruct (reported_selects unit) as [|sel sels]; simpl.
  - split; [discriminate|congruence].
  - split; [discriminate|reflexivity].
Qed.

(** X7. [remediate_array] returns, in the order of its input, the scan of
    exactly those units in which some located statement violates the rule:
    every returned unit is the scan of an input unit and carries at least
    one finding, and the scan of every violating input unit is returned. *)
Theorem remediate_array_keeps_violations (units : list Unit) :
  remediate_array units =
  map scan_unit (filter (fun u => has_findings (scan_unit u)) units) /\
  (forall r, In r (remediate_array units) <->
             exists u, In u units /\ r = scan_unit u /\
                       reported_selects u <> []) /\
  Forall (fun r => exists f fs, findings r = Some (f :: fs))
    (remediate_array units).
Proof.
  rewrite remediate_array_filter.
  assert (E : filter has_findings (map scan_unit units) =
              map scan_unit (filter (fun u => has_findings (scan_unit u)) units)).
  { induction units as [|u units IH]; cbn [map filter]; [reflexivity|].
    destruct (has_findings (scan_unit u)); cbn [map]; rewrite IH;
      reflexivity. }
  split; [exact E|]. split.
  - intros r. rewrite filter_In, in_map_iff. split.
    + intros [(u & <- & Hu) Hr]. exists u.
      split; [exact Hu|]. split; [reflexivity|].
      apply has_findings_reported. exact Hr.
    + intros (u & Hu & -> & Hr). split; [exists u; auto|].
      apply has_findings_reported. exact Hr.
  - apply Forall_forall. intros r Hr. apply filter_In in Hr.
    destruct Hr as [_ Hr]. unfold has_findings in Hr.
    destruct (findings r) as [[|f fs]|]; try discriminate. eauto.
Qed.

(** X8. Batches compose: the result for two batches one after the other is
    the two results one after the other, and feeding the result back
    returns it unchanged. *)
Theorem remediate_array_composes (us vs : list Unit) :
  remediate_array (us ++ vs) = remediate_array us ++ remediate_array vs /\
  remediate_array (remediate_array us) = remediate_array us.
Proof.
  rewrite !remediate_array_filter. split.
  - rewrite map_app, filter_app. reflexivity.
  - induction us as [|u us IH]; cbn [map filter]; [reflexivity|].
    destruct (has_findings (scan_unit u)) eqn:E; cbn [map filter];
      [|exact IH].
    rewrite (proj1 (scan_unit_idempotent_aux u)), E, IH. reflexivity.
Qed.

Lemma spans_ordered_weaken (ms : list (nat * nat)) (lo lo' : nat) :
  lo' <= lo -> spans_ordered lo ms -> spans_ordered lo' ms.
Proof.
  destruct ms as [|[a b] ms]; simpl; [auto|].
  intros H (H1 & H2 & H3). repeat split; [lia|lia|exact H3].
Qed.

Lemma match_at_span (r : regex) (p : nat) (pv : option ascii) (rs : str)
    (m : mobj) :
  match_at r (Cursor p pv rs) = Some m -> m_start m = p /\ p <= m_end m.
Proof.
  intros H. apply match_at_sound in H. destruct H as (c' & Hm & -> & ->).
  apply matches_reach, reach_bounds in Hm. simpl in *. lia.
Qed.

Lemma finditer_from_ordered (r : regex) :
  forall rs skip p pv,
    spans_ordered (p + skip) (map mspan (finditer_from r skip p pv rs)).
Proof.
  induction rs as [|c rs IH]; intros skip p pv.
  - destruct skip; simpl; [|exact I].
    destruct (match_at r (Cursor p pv [])) as [m|] eqn:E; simpl; [|exact I].
    apply match_at_span in E. lia.
  - destruct skip as [|n]; cbn [finditer_from].
    + destruct (match_at r (Cursor p pv (c :: rs))) as [m|] eqn:E.
      * apply match_at_span in E. destruct E as [Es Ee].
        cbn [map spans_ordered mspan]. split; [lia|]. split; [lia|].
        eapply spans_ordered_weaken; [|apply IH]. lia.
      * eapply spans_ordered_weaken; [|apply IH]. lia.
    + eapply spans_ordered_weaken; [|apply IH]. lia.
Qed.

Lemma find_selects_of_ordered (txt : str) :
  forall ms lo,
    spans_ordered lo (map mspan ms) ->
    spans_ordered lo (map span (flat_map (select_of_match txt) ms)).
Proof.
  induction ms as [|m ms IH]; intros lo H; cbn [flat_map map]; [exact I|].
  cbn [map spans_ordered mspan] in H. destruct H as (H1 & H2 & H3).
  unfold select_of_match at 1.
  destruct (filter is_vbrk_vbrp _).
  - cbn [app]. eapply spans_ordered_weaken; [|apply IH; exact H3]. lia.
  - cbn [app map span spans_ordered]. repeat split; try lia.
    apply IH. exact H3.
Qed.

Lemma filter_spans_ordered (P : Select -> bool) :
  forall sels lo,
    spans_ordered lo (map span sels) ->
    spans_ordered lo (map span (filter P sels)).
Proof.
  induction sels as [|sel sels IH]; intros lo H; cbn [filter map]; [exact I|].
  cbn [map spans_ordered] in H. destruct (span sel) as [a b] eqn:E.
  destruct H as (H1 & H2 & H3). destruct (P sel).
  - cbn [map spans_ordered]. rewrite E. repeat split; try lia.
    apply IH. exact H3.
  - eapply spans_ordered_weaken; [|apply IH; exact H3]. lia.
Qed.

Lemma line_number_mono (txt : str) (n m : nat) :
  n <= m -> (line_number txt n <= line_number txt m)%Z.
Proof.
  intros H. unfold line_number.
  replace m with (n + (m - n)) by lia.
  rewrite firstn_plus, count_nl_app. lia.
Qed.

Lemma ordered_lines_sorted (txt : str) (base : Z) :
  forall sels lo,
    spans_ordered lo (map span sels) ->
    Forall (fun sel => lo <= fst (span sel)) sels /\
    StronglySorted Z.le
      (map (fun sel => (base + line_number txt (fst (span sel)))%Z) sels).
Proof.
  induction sels as [|sel sels IH]; intros lo H; cbn [map].
  - split; constructor.
  - cbn [map spans_ordered] in H. destruct (span sel) as [a b] eqn:E.
    destruct H as (H1 & H2 & H3). destruct (IH b H3) as [Hall Hs].
    split.
    + constructor; [rewrite E; simpl; lia|].
      eapply Forall_impl; [|exact Hall]. simpl. intros; lia.
    + constructor; [exact Hs|]. apply Forall_map.
      eapply Forall_impl; [|exact Hall]. simpl. intros x Hx.
      pose proof (@line_number_mono txt a (fst (span x))). lia.
Qed.

(** X9. Located statements do not overlap and come in the order of the
    text: each span starts at or after the end of the one before.  The
    findings follow that order, so their starting lines never decrease. *)
Theorem findings_in_source_order (unit : Unit) :
  spans_ordered 0 (map span (find_selects (src_of unit))) /\
  spans_ordered 0 (map span (reported_selects unit)) /\
  exists lines,
    map starting_line (findings_of (scan_unit unit)) = map Some lines /\
    StronglySorted Z.le lines.
Proof.
  assert (H : spans_ordered 0 (map span (find_selects (src_of unit)))).
  { unfold find_selects. apply find_selects_of_ordered.
    apply (finditer_from_ordered SELECT_RE (src_of unit) 0 0 None). }
  assert (H' : spans_ordered 0 (map span (reported_selects unit)))
    by (apply filter_spans_ordered; exact H).
  split; [exact H|]. split; [exact H'|].
  exists (map (fun sel =>
                 (base_of unit + line_number (src_of unit) (fst (span sel)))%Z)
            (reported_selects unit)).
  split.
  - rewrite findings_of_scan, !map_map. apply map_ext. intros sel.
    unfold make_finding, line_number. destruct (span sel) as [s e]; simpl.
    rewrite slice_0. reflexivity.
  - apply (@ordered_lines_sorted (src_of unit) (base_of unit) _ 0 H').
Qed.

(** ** The matcher with its captures *)

Lemma rep_greedy_sound_caps (s : cset) (k : cont) x (cp : caps) :
  forall rs min p pv,
    rep_greedy s min p pv rs cp k = Some x ->
    exists c', matches (Rep true min s) (Cursor p pv rs) c' /\ k c' cp = Some x.
Proof.
  induction rs as [|c rs IH]; intros min p pv H; simpl in H.
  - apply rep_stop_some in H. destruct H as [-> H].
    eexists. split; [apply M_Rep0|exact H].
  - destruct (in_cset s c) eqn:Ec.
    + destruct (rep_greedy s (Nat.pred min) (S p) (Some c) rs cp k) as [y|] eqn:E.
      * injection H as <-. apply IH in E. destruct E as (c' & Hm & Hk).
        exists c'. split; [|exact Hk]. apply M_RepS; assumption.
      * apply rep_stop_some in H. destruct H as [-> H].
        eexists. split; [apply M_Rep0|exact H].
    + apply rep_stop_some in H. destruct H as [-> H].
      eexists. split; [apply M_Rep0|exact H].
Qed.

Lemma rep_lazy_sound_caps (s : cset) (k : cont) x (cp : caps) :
  forall rs min p pv,
    rep_lazy s min p pv rs cp k = Some x ->
    exists c', matches (Rep false min s) (Cursor p pv rs) c' /\ k c' cp = Some x.
Proof.
  induction rs as [|c rs IH]; intros min p pv H; simpl in H.
  - destruct (rep_stop min (Cursor p pv []) cp k) as [y|] eqn:E; [|discriminate].
    injection H as <-. apply rep_stop_some in E. destruct E as [-> E].
    eexists. split; [apply M_Rep0|exact E].
  - destruct (rep_stop min (Cursor p pv (c :: rs)) cp k) as [y|] eqn:E.
    + injection H as <-. apply rep_stop_some in E. destruct E as [-> E].
      eexists. split; [apply M_Rep0|exact E].
    + destruct (in_cset s c) eqn:Ec; [|discriminate].
      apply IH in H. destruct H as (c' & Hm & Hk).
      exists c'. split; [|exact Hk]. apply M_RepS; assumption.
Qed.

(** Soundness with captures: the captures handed to the continuation are
    those that the groups on the way recorded. *)
Lemma rmatch_sound_caps (r : regex) :
  forall cur cp k x,
    rmatch r cur cp k = Some x ->
    exists c' cp', cmatches r cur cp c' cp' /\ k c' cp' = Some x.
Proof.
  induction r as [|a|s|r1 IH1 r2 IH2|r1 IH1 r2 IH2|g min s|r1 IH1|g r1 IH1
                 |r1 IH1| |]; intros cur cp k x H; simpl in H.
  - eexists _, _. split; [apply CM_Eps|exact H].
  - destruct cur as [p pv [|c rs]]; simpl in H; [discriminate|].
    destruct (ci_eqb a c) eqn:E; [|discriminate].
    eexists _, _. split; [apply CM_Chr, M_Chr; exact E|exact H].
  - destruct cur as [p pv [|c rs]]; simpl in H; [discriminate|].
    destruct (in_cset s c) eqn:E; [|discriminate].
    eexists _, _. split; [apply CM_Cls, M_Cls; exact E|exact H].
  - apply IH1 in H. destruct H as (c1 & cp1 & Hm1 & H).
    apply IH2 in H. destruct H as (c2 & cp2 & Hm2 & H).
    exists c2, cp2. split; [|exact H]. eapply CM_Seq; eassumption.
  - destruct (rmatch r1 cur cp k) as [y|] eqn:E.
    + injection H as <-. apply IH1 in E. destruct E as (c' & cp' & Hm & Hk).
      exists c', cp'. split; [apply CM_AltL; exact Hm|exact Hk].
    + apply IH2 in H. destruct H as (c' & cp' & Hm & Hk).
      exists c', cp'. split; [apply CM_AltR; exact Hm|exact Hk].
  - destruct cur as [p pv rs]. destruct g; simpl in H.
    + apply rep_greedy_sound_caps in H. destruct H as (c' & Hm & Hk).
      exists c', cp. split; [apply CM_Rep; exact Hm|exact Hk].
    + apply rep_lazy_sound_caps in H. destruct H as (c' & Hm & Hk).
      exists c', cp. split; [apply CM_Rep; exact Hm|exact Hk].
  - destruct (rmatch r1 cur cp k) as [y|] eqn:E.
    + injection H as <-. apply IH1 in E. destruct E as (c' & cp' & Hm & Hk).
      exists c', cp'. split; [apply CM_OptY; exact Hm|exact Hk].
    + eexists _, _. split; [apply CM_OptN|exact H].
  - apply IH1 in H. destruct H as (c' & cp' & Hm & Hk).
    eexists _, _. split; [apply CM_Grp; exact Hm|exact Hk].
  - destruct (rmatch r1 cur cp (fun cur' cp' => Some (cur', cp')))
      as [[c1 cp1]|] eqn:E; [|discriminate].
    apply IH1 in E. destruct E as (c' & cp' & Hm & Hk).
    injection Hk as <- <-.
    eexists _, _. split; [eapply CM_Look; exact Hm|exact H].
  - destruct (at_boundary cur) eqn:E; [|discriminate].
    eexists _, _. split; [apply CM_Bnd; exact E|exact H].
  - destruct (at_eos cur) eqn:E; [|discriminate].
    eexists _, _. split; [apply CM_Eos; exact E|exact H].
Qed.

Lemma cmatches_matches (r : regex) (c c' : cursor) (cp cp' : caps) :
  cmatches r c cp c' cp' -> matches r c c'.
Proof.
  induction 1; try assumption.
  - apply M_Eps.
  - eapply M_Seq; eassumption.
  - apply M_AltL. assumption.
  - apply M_AltR. assumption.
  - apply M_OptY. assumption.
  - apply M_OptN.
  - apply M_Grp. assumption.
  - eapply M_Look. eassumption.
  - apply M_Bnd. assumption.
  - apply M_Eos. assumption.
Qed.

Lemma cmatches_nogroup (r : regex) (c c' : cursor) (cp cp' : caps) :
  cmatches r c cp c' cp' -> has_group r = false -> cp' = cp.
Proof.
  induction 1; simpl; intros Hg; try reflexivity; try discriminate;
    try (apply orb_false_iff in Hg; destruct Hg as [Hg1 Hg2]); auto.
  rewrite (IHcmatches2 Hg2). auto.
Qed.

Lemma cm_Seq_inv (r1 r2 : regex) (c c' : cursor) (cp cp' : caps) :
  cmatches (Seq r1 r2) c cp c' cp' ->
  exists c1 cp1, cmatches r1 c cp c1 cp1 /\ cmatches r2 c1 cp1 c' cp'.
Proof. intros H. inversion H; subst. eauto. Qed.

Lemma cm_Grp_inv (g : string) (r : regex) (c c' : cursor) (cp cp' : caps) :
  cmatches (Grp g r) c cp c' cp' ->
  exists cp1, cmatches r c cp c' cp1 /\ cp' = (g, (pos c, pos c')) :: cp1.
Proof. intros H. inversion H; subst. eauto. Qed.

Lemma cm_Opt_inv (r : regex) (c c' : cursor) (cp cp' : caps) :
  cmatches (Opt r) c cp c' cp' ->
  cmatches r c cp c' cp' \/ (c' = c /\ cp' = cp).
Proof. intros H. inversion H; subst; auto. Qed.

Lemma match_at_caps (r : regex) (cur : cursor) (m : mobj) :
  match_at r cur = Some m ->
  exists c', cmatches r cur [] c' (m_caps m) /\
             m_start m = pos cur /\ m_end m = pos c'.
Proof.
  unfold match_at. intros H.
  destruct (rmatch r cur [] accept) as [[c' cp]|] eqn:E; [|discriminate].
  injection H as <-. apply rmatch_sound_caps in E.
  destruct E as (c1 & cp1 & Hm & Hk). unfold accept in Hk.
  injection Hk as <- <-. exists c1. auto.
Qed.

Lemma finditer_from_match_at (r : regex) (m : mobj) :
  forall rs skip p pv,
    In m (finditer_from r skip p pv rs) ->
    exists c0, reach (Cursor p pv rs) c0 /\ match_at r c0 = Some m.
Proof.
  induction rs as [|c rs IH]; intros skip p pv H.
  - destruct skip; simpl in H; [|contradiction].
    destruct (match_at r (Cursor p pv [])) as [m'|] eqn:E; [|contradiction].
    destruct H as [->|[]]. eexists. split; [apply reach_here|exact E].
  - assert (Hnext : forall n,
               In m (finditer_from r n (S p) (Some c) rs) ->
               exists c0, reach (Cursor p pv (c :: rs)) c0 /\
                          match_at r c0 = Some m).
    { intros n Hn. apply IH in Hn. destruct Hn as (c0 & Hr & Hm).
      exists c0. split; [apply reach_next; exact Hr|exact Hm]. }
    destruct skip; simpl in H; [|eapply Hnext; exact H].
    destruct (match_at r (Cursor p pv (c :: rs))) as [m'|] eqn:E.
    + destruct H as [->|H]; [|eapply Hnext; exact H].
      eexists. split; [apply reach_here|exact E].
    + eapply Hnext; exact H.
Qed.

Lemma matches_Chr_pos (a : ascii) (c c' : cursor) :
  matches (Chr a) c c' -> pos c' = S (pos c).
Proof. intros H. inversion H; subst. reflexivity. Qed.

Lemma or_str_some_nil (x : str) : or_str (Some x) [] = x.
Proof. destruct x; reflexivity. Qed.

Lemma skipn_cons_nth (t r : str) (x : ascii) :
  forall n, skipn n t = x :: r -> nth_error t n = Some x.
Proof.
  induction t as [|y t IH]; intros n H.
  - rewrite skipn_nil in H. discriminate.
  - destruct n as [|n]; simpl in *; [congruence|apply IH; exact H].
Qed.

(** What a match of [SELECT_RE] looks like: the group [full] spans the
    match but its last character, which is the period. *)
Lemma select_re_full (c0 c' : cursor) (cp : caps) :
  cmatches SELECT_RE c0 [] c' cp ->
  exists cz c1 c2 w sps,
    lookup_cap "full" cp = Some (pos c0, pos cz) /\
    rest cz = "."%char :: rest c' /\ pos c' = S (pos cz) /\
    reach c0 cz /\
    ci_eq w (lit "SELECT") /\ rest c0 = w ++ rest c1 /\
    all_space sps /\ 1 <= List.length sps /\ rest c1 = sps ++ rest c2 /\
    reach c2 cz.
Proof.
  unfold SELECT_RE. intros H.
  apply cm_Seq_inv in H. destruct H as (cz & cpz & Hfull & Hdot).
  pose proof (cmatches_nogroup Hdot eq_refl) as ->.
  apply cmatches_matches in Hdot.
  pose proof (matches_Chr_pos Hdot) as Hpos.
  apply matches_Chr_inv in Hdot. destruct Hdot as (x & Hx & Hrest).
  apply ci_eqb_nonletter in Hx; [|reflexivity|reflexivity]. subst x.
  apply cm_Grp_inv in Hfull. destruct Hfull as (cp1 & Hin & ->).
  apply cmatches_matches in Hin.
  pose proof (matches_reach Hin) as Hreach.
  cbn [seqs] in Hin.
  apply matches_Seq_inv in Hin. destruct Hin as (c1 & H1 & Hin).
  apply matches_Seq_inv in Hin. destruct Hin as (c2 & H2 & Hin).
  apply matches_Lit_inv in H1. destruct H1 as (w & Hw & E1).
  apply matches_Rep_inv in H2. destruct H2 as (sps & Hs & Hlen & E2).
  apply matches_reach in Hin.
  exists cz, c1, c2, w, sps. simpl. repeat split; auto.
Qed.

(** X10. Every located statement [sel] with span [s, e): the span is not
    empty and lies in the text; its last character is the period, and
    [text] is the span without it; the text starts with SELECT, in any
    letter case, followed by whitespace; the span holds an INTO; and among
    its tables at least one is VBRK or VBRP. *)
Theorem located_statement_shape (txt : str) (sel : Select) :
  In sel (find_selects txt) ->
  exists w sp tl,
    fst (span sel) < snd (span sel) <= List.length txt /\
    text sel = slice txt (fst (span sel)) (snd (span sel) - 1) /\
    nth_error txt (snd (span sel) - 1) = Some "."%char /\
    text sel = w ++ sp :: tl /\ ci_eq w (lit "SELECT") /\ is_space sp = true /\
    has_into (slice txt (fst (span sel)) (snd (span sel))) /\
    filter is_vbrk_vbrp (tables sel) <> [].
Proof.
  intros Hsel.
  pose proof (find_selects_span _ _ Hsel) as Hspan.
  pose proof (find_selects_has_table _ _ Hsel) as Htab.
  unfold find_selects in Hsel. apply in_flat_map in Hsel.
  destruct Hsel as (m & Hm & Hsel).
  pose proof (located_span_has_into _ _ Hm) as Hinto.
  apply finditer_from_match_at in Hm. destruct Hm as (c0 & Hr & Hm).
  apply match_at_caps in Hm. destruct Hm as (c' & Hcm & Hs & He).
  apply select_re_full in Hcm.
  destruct Hcm as (cz & c1 & c2 & w & sps & Hfull & Hdot & Hpos & Hrz & Hw
                   & E1 & Hsp & Hlen & E2 & Hr2).
  unfold select_of_match in Hsel.
  destruct (filter is_vbrk_vbrp _); [contradiction|].
  destruct Hsel as [<-|[]]. simpl in *.
  unfold group. rewrite Hfull, or_str_some_nil.
  rewrite Hs, He, Hpos. replace (S (pos cz) - 1) with (pos cz) by lia.
  pose proof (reach_slice Hr Hrz) as Eall.
  apply reach_inv in Hr2. destruct Hr2 as (u & E3).
  destruct sps as [|sp sps]; [simpl in Hlen; lia|].
  exists w, sp, (sps ++ u). split; [lia|]. split; [reflexivity|].
  split.
  - apply (@skipn_cons_nth txt (rest c')).
    rewrite <- (reach_start_rest (reach_trans Hr Hrz)). exact Hdot.
  - split.
    + rewrite E1, E2, E3 in Eall.
      replace (w ++ ((sp :: sps) ++ u ++ rest cz))
        with ((w ++ sp :: sps ++ u) ++ rest cz) in Eall
        by (rewrite <- !app_assoc; simpl; rewrite <- !app_assoc; reflexivity).
      apply app_inv_tail in Eall. symmetry. exact Eall.
    + split; [exact Hw|]. split; [inversion Hsp; assumption|].
      rewrite Hs, He, Hpos in Hinto. split; [exact Hinto|exact Htab].
Qed.

Lemma located_statement_shape_witness :
  In {| text := lit "SELECT a~vbeln FROM vbrk AS a INTO TABLE @lt_result";
        tables := [tref "VBRK" "A"];
        span := (0, 52) |} (find_selects stmt_violation) /\
  slice stmt_violation 0 (52 - 1) =
  lit "SELECT a~vbeln FROM vbrk AS a INTO TABLE @lt_result" /\
  nth_error stmt_violation (52 - 1) = Some "."%char.
Proof.
  assert (H : In {| text := lit "SELECT a~vbeln FROM vbrk AS a INTO TABLE @lt_result";
                    tables := [tref "VBRK" "A"];
                    span := (0, 52) |} (find_selects stmt_violation))
    by (rewrite find_selects_violation; left; reflexivity).
  split; [exact H|].
  destruct (located_statement_shape _ _ H)
    as (w & sp & tl & _ & Ht & Hn & _).
  simpl in Ht, Hn. split; [symmetry; exact Ht|exact Hn].
Defined.

(** ** The resolver *)

Lemma upper_char_word (c : ascii) :
  is_word c = true ->
  is_word (upper_char c) = true /\ is_lower (upper_char c) = false.
Proof.
  destruct c as [b0 b1 b2 b3 b4 b5 b6 b7];
    destruct b0, b1, b2, b3, b4, b5, b6, b7; vm_compute;
    intros H; try discriminate H; split; reflexivity.
Qed.

Lemma word_not_space (c : ascii) : is_word c = true -> is_space c = false.
Proof.
  destruct c as [b0 b1 b2 b3 b4 b5 b6 b7];
    destruct b0, b1, b2, b3, b4, b5, b6, b7; vm_compute;
    intros H; try discriminate H; reflexivity.
Qed.

Lemma upper_identifier_upper (w : str) :
  identifier w -> upper_identifier (upper w).
Proof.
  intros [Hne Hall]. split.
  - destruct w; [congruence|discriminate].
  - unfold upper. apply Forall_map. eapply Forall_impl; [|exact Hall].
    apply upper_char_word.
Qed.

(** The text that a repetition consumed is the slice between its cursors. *)
Lemma rep_slice (txt : str) (g : bool) (min : nat) (s : cset) (c c' : cursor) :
  reach (Cursor 0 None txt) c -> matches (Rep g min s) c c' ->
  Forall (fun x => in_cset s x = true) (slice txt (pos c) (pos c')) /\
  min <= List.length (slice txt (pos c) (pos c')).
Proof.
  intros Hr Hm. pose proof (reach_slice Hr (matches_reach Hm)) as E.
  apply matches_Rep_inv in Hm. destruct Hm as (w & Hw & Hmin & Ew).
  rewrite Ew in E. apply app_inv_tail in E. subst w. auto.
Qed.

Lemma rep_word_identifier (txt : str) (c c' : cursor) :
  reach (Cursor 0 None txt) c -> matches (Rep true 1 Word) c c' ->
  identifier (slice txt (pos c) (pos c')).
Proof.
  intros Hr Hm. destruct (rep_slice Hr Hm) as [Hall Hlen]. split.
  - intros E. rewrite E in Hlen. simpl in Hlen. lia.
  - exact Hall.
Qed.

(** The groups of a match of [tbl_alias_re]: group 1 is an identifier at
    the start of the text; group 2, when it took part, is an identifier. *)
Lemma tbl_alias_groups (cand : str) (m : mobj) :
  re_match tbl_alias_re cand = Some m ->
  exists w1,
    group cand m "1" = Some w1 /\ identifier w1 /\
    (group cand m "2" = None \/
     exists w2, group cand m "2" = Some w2 /\ identifier w2).
Proof.
  unfold re_match. intros H. apply match_at_caps in H.
  destruct H as (c' & H & _ & _). unfold tbl_alias_re in H.
  apply cm_Seq_inv in H. destruct H as (c1 & cpa & H1 & H2).
  apply cm_Grp_inv in H1. destruct H1 as (cp0 & H1 & ->).
  pose proof (cmatches_nogroup H1 eq_refl) as ->.
  apply cmatches_matches in H1.
  pose proof (rep_word_identifier (reach_here _) H1) as Hw1. simpl in Hw1.
  apply cm_Opt_inv in H2. destruct H2 as [H2|[-> E]].
  - cbn [seqs] in H2.
    apply cm_Seq_inv in H2. destruct H2 as (c2 & cpb & Hs & H2).
    pose proof (cmatches_nogroup Hs eq_refl) as ->.
    apply cm_Seq_inv in H2. destruct H2 as (c3 & cpc & Ha & H2).
    pose proof (cmatches_nogroup Ha eq_refl) as ->.
    apply cm_Grp_inv in H2. destruct H2 as (cpd & H2 & E).
    pose proof (cmatches_nogroup H2 eq_refl) as ->.
    apply cmatches_matches in Hs, Ha, H2.
    assert (Hr3 : reach (Cursor 0 None cand) c3).
    { eapply reach_trans; [eapply matches_reach; exact H1|].
      eapply reach_trans; eapply matches_reach; eassumption. }
    pose proof (rep_word_identifier Hr3 H2) as Hw2.
    exists (slice cand 0 (pos c1)). unfold group. rewrite E. simpl.
    split; [reflexivity|]. split; [exact Hw1|]. right. eauto.
  - exists (slice cand 0 (pos c1)). unfold group. rewrite E. simpl.
    split; [reflexivity|]. split; [exact Hw1|]. left. reflexivity.
Qed.

Lemma or_str_identifier (w b : str) : identifier w -> or_str (Some w) b = w.
Proof. intros [Hne _]. destruct w; [congruence|reflexivity]. Qed.

Lemma table_of_candidate_words (cand : str) (t : TableRef) :
  In t (table_of_candidate cand) ->
  upper_identifier (table t) /\ upper_identifier (alias t) /\
  (exists w, substr w cand /\ table t = upper w) /\
  (exists w, substr w cand /\ alias t = upper w).
Proof.
  unfold table_of_candidate.
  destruct (strip cand) as [|c0 cs] eqn:Es; [intros []|]. rewrite <- Es.
  destruct (re_match tbl_alias_re (strip cand)) as [m|] eqn:Em; [|intros []].
  pose proof (group_substr (strip cand) m "1") as S1.
  pose proof (group_substr (strip cand) m "2") as S2.
  destruct (tbl_alias_groups _ Em) as (w1 & E1 & I1 & E2).
  rewrite E1 in S1 |- *. rewrite (or_str_identifier [] I1) in S1 |- *.
  pose proof (upper_identifier_upper I1) as U1.
  assert (Sc : forall w, substr w (strip cand) -> substr w cand)
    by (intros w Hw; eapply substr_trans; [exact Hw|apply strip_substr]).
  apply Sc in S1.
  destruct (upper w1) as [|x xs] eqn:Eu; [intros []|]. rewrite <- Eu in *.
  intros [<-|[]]. cbn [table alias].
  split; [exact U1|].
  destruct E2 as [E2|(w2 & E2 & I2)]; rewrite E2 in S2 |- *.
  - cbn [or_str]. split; [exact U1|].
    split; exists w1; (split; [exact S1|reflexivity]).
  - rewrite (or_str_identifier [] I2) in S2.
    rewrite (or_str_identifier w1 I2). apply Sc in S2.
    split; [apply upper_identifier_upper; exact I2|].
    split; [exists w1|exists w2]; (split; [assumption|reflexivity]).
Qed.

Lemma candidate_substr (from_clause part cand : str) :
  In part (re_split JOIN_RE from_clause) ->
  In cand (split_on "," (hd [] (re_split ON_RE part))) ->
  substr cand from_clause.
Proof.
  intros Hpart Hcand.
  eapply substr_trans; [eapply split_on_substr; exact Hcand|].
  eapply substr_trans; [apply hd_re_split_substr|].
  unfold re_split in Hpart. eapply pieces_substr. exact Hpart.
Qed.

(** X11. Every table reference that the resolver yields has for table and
    for alias a non-empty identifier of word characters without lower-case
    letters, each the upper-case form of a stretch of the FROM clause. *)
Theorem extract_tables_identifiers (from_clause : str) :
  Forall
    (fun t =>
       upper_identifier (table t) /\ upper_identifier (alias t) /\
       (exists w, substr w from_clause /\ table t = upper w) /\
       (exists w, substr w from_clause /\ alias t = upper w))
    (extract_tables from_clause).
Proof.
  apply Forall_forall. intros t H. unfold extract_tables in H.
  apply in_flat_map in H. destruct H as (part & Hpart & H).
  apply in_flat_map in H. destruct H as (cand & Hcand & H).
  pose proof (@candidate_substr _ _ _ Hpart Hcand) as Hs.
  apply table_of_candidate_words in H.
  destruct H as (U1 & U2 & (w1 & S1 & E1) & (w2 & S2 & E2)).
  split; [exact U1|]. split; [exact U2|].
  split; [exists w1|exists w2]; (split; [eapply substr_trans; eassumption|]);
    assumption.
Qed.

Lemma pos_run (w rs : str) : forall p pv, pos (run p pv w rs) = p + List.length w.
Proof.
  induction w as [|c w IH]; intros p pv; simpl; [lia|]. rewrite IH. lia.
Qed.

(** A greedy repetition over a run of characters of the set, the next
    character outside it, consumes the whole run when the continuation
    accepts that. *)
Lemma rep_greedy_run (s : cset) (cp : caps) (k : cont) x :
  forall w rs min p pv,
    Forall (fun c => in_cset s c = true) w -> min <= List.length w ->
    match rs with [] => True | c :: _ => in_cset s c = false end ->
    k (run p pv w rs) cp = Some x ->
    rep_greedy s min p pv (w ++ rs) cp k = Some x.
Proof.
  induction w as [|c w IH]; intros rs min p pv Hw Hmin Hrs Hk; simpl in *.
  - replace min with 0 by lia. destruct rs as [|c rs]; simpl; [exact Hk|].
    rewrite Hrs. exact Hk.
  - inversion Hw as [|? ? Hc Hw']; subst. rewrite Hc.
    rewrite (IH rs (Nat.pred min) (S p) (Some c)); auto. lia.
Qed.

Lemma rmatch_Rep_run (s : cset) (min : nat) (c : cursor) (w rs : str)
    (cp : caps) (k : cont) x :
  rest c = w ++ rs ->
  Forall (fun a => in_cset s a = true) w -> min <= List.length w ->
  match rs with [] => True | a :: _ => in_cset s a = false end ->
  k (run (pos c) (prev c) w rs) cp = Some x ->
  rmatch (Rep true min s) c cp k = Some x.
Proof.
  intros Hr Hw Hmin Hrs Hk. simpl. rewrite Hr.
  apply rep_greedy_run; assumption.
Qed.

Lemma rmatch_Lit_run (s : str) (cp : caps) (k : cont) :
  forall w rs c,
    rest c = w ++ rs -> ci_eq w s ->
    rmatch (Lit s) c cp k = k (run (pos c) (prev c) w rs) cp.
Proof.
  induction s as [|a s IH]; intros w rs c Hr Hw.
  - inversion Hw; subst. destruct c as [p pv r]. simpl in *. subst r.
    reflexivity.
  - inversion Hw as [|x a' l s' Hx Hl]; subst.
    destruct c as [p pv r]. simpl in Hr. subst r.
    cbn [Lit rmatch rest]. simpl app. rewrite Hx. unfold advance. cbn [pos].
    rewrite (IH l rs (Cursor (S p) (Some x) (l ++ rs)) eq_refl Hl).
    reflexivity.
Qed.

Lemma slice_prefix (w r : str) : slice (w ++ r) 0 (0 + List.length w) = w.
Proof.
  unfold slice. simpl. rewrite Nat.sub_0_r.
  replace (List.length w) with (List.length w + 0) by lia.
  rewrite firstn_app_2. simpl. apply app_nil_r.
Qed.

Lemma slice_middle (p w r : str) :
  slice (p ++ w ++ r) (List.length p) (List.length p + List.length w) = w.
Proof.
  unfold slice. rewrite skipn_app, skipn_all, Nat.sub_diag. simpl.
  replace (List.length p + List.length w - List.length p)
    with (List.length w + 0) by lia.
  rewrite firstn_app_2. simpl. apply app_nil_r.
Qed.

Lemma identifier_head (t r : str) :
  identifier t ->
  match t ++ r with [] => True | a :: _ => in_cset Space a = false end.
Proof.
  intros [Hne Hall]. destruct t as [|a t]; [congruence|]. simpl.
  inversion Hall; subst. apply word_not_space. assumption.
Qed.

Lemma identifier_head0 (t : str) :
  identifier t ->
  match t with [] => True | a :: _ => in_cset Space a = false end.
Proof.
  intros H. pose proof (identifier_head [] H) as H'.
  rewrite app_nil_r in H'. exact H'.
Qed.

Lemma spaces_head (ws r : str) :
  all_space ws -> ws <> [] ->
  match ws ++ r with [] => True | a :: _ => in_cset Word a = false end.
Proof.
  intros Hall Hne. destruct ws as [|a ws]; [congruence|]. simpl.
  inversion Hall; subst. destruct (is_word a) eqn:E; [|reflexivity].
  apply word_not_space in E. congruence.
Qed.

Lemma rmatch_Seq (r1 r2 : regex) (c : cursor) (cp : caps) (k : cont) :
  rmatch (Seq r1 r2) c cp k =
  rmatch r1 c cp (fun c' cp' => rmatch r2 c' cp' k).
Proof. reflexivity. Qed.

Lemma rmatch_Grp (g : string) (r : regex) (c : cursor) (cp : caps) (k : cont) :
  rmatch (Grp g r) c cp k =
  rmatch r c cp (fun c' cp' => k c' ((g, (pos c, pos c')) :: cp')).
Proof. reflexivity. Qed.

Lemma rmatch_Opt (r : regex) (c : cursor) (cp : caps) (k : cont) :
  rmatch (Opt r) c cp k =
  match rmatch r c cp k with Some x => Some x | None => k c cp end.
Proof. reflexivity. Qed.

Lemma identifier_length (t : str) : identifier t -> 1 <= List.length t.
Proof. intros [Hne _]. destruct t; [congruence|simpl; lia]. Qed.

Lemma nonempty_length (t : str) : t <> [] -> 1 <= List.length t.
Proof. intros Hne. destruct t; [congruence|simpl; lia]. Qed.

(** An identifier alone: group 1 takes it, group 2 takes no part. *)
Lemma tbl_alias_single (t : str) :
  identifier t ->
  exists m, re_match tbl_alias_re t = Some m /\
            group t m "1" = Some t /\ group t m "2" = None.
Proof.
  intros It. set (c1 := run 0 None t []).
  assert (E : rmatch tbl_alias_re (Cursor 0 None t) [] accept =
              Some (c1, [("1"%string, (0, pos c1))])).
  { unfold tbl_alias_re. rewrite rmatch_Seq, rmatch_Grp.
    apply (@rmatch_Rep_run Word 1 (Cursor 0 None t) t []);
      [simpl; symmetry; apply app_nil_r | apply It
      | apply identifier_length; exact It | exact I | ].
    cbv beta. cbn [pos prev]. fold c1.
    rewrite rmatch_Opt. cbn [seqs]. rewrite rmatch_Seq.
    unfold spaces1 at 1. cbn [rmatch]. unfold c1 at 1 2 3.
    rewrite run_rest. reflexivity. }
  unfold re_match, match_at. rewrite E.
  eexists. split; [reflexivity|]. unfold group. cbn [m_caps lookup_cap].
  simpl String.eqb. cbv iota. unfold c1. rewrite pos_run.
  split; [|reflexivity]. f_equal.
  rewrite <- (app_nil_r t) at 1. apply slice_prefix.
Qed.

(** A table, whitespace, optionally AS and whitespace, and an alias:
    group 1 takes the table and group 2 the alias. *)
Lemma tbl_alias_pair (t ws mid a : str) :
  identifier t -> identifier a -> all_space ws -> ws <> [] ->
  (mid = [] \/
   exists k ws2, mid = k ++ ws2 /\ ci_eq k (lit "AS") /\
                 all_space ws2 /\ ws2 <> []) ->
  exists m, re_match tbl_alias_re (t ++ ws ++ mid ++ a) = Some m /\
            group (t ++ ws ++ mid ++ a) m "1" = Some t /\
            group (t ++ ws ++ mid ++ a) m "2" = Some a.
Proof.
  intros It Ia Hws Hne Hmid.
  remember (run 0 None t (ws ++ mid ++ a)) as c1 eqn:Ec1.
  remember (run (pos c1) (prev c1) ws (mid ++ a)) as c2 eqn:Ec2.
  set (G2 := Grp "2" (Rep true 1 Word)).
  assert (R1 : rest c1 = ws ++ mid ++ a) by (rewrite Ec1; apply run_rest).
  assert (P1 : pos c1 = List.length t) by (rewrite Ec1, pos_run; lia).
  assert (R2 : rest c2 = mid ++ a) by (rewrite Ec2; apply run_rest).
  assert (P2 : pos c2 = List.length t + List.length ws)
    by (rewrite Ec2, pos_run; lia).
  assert (Hhead : match mid ++ a with
                  | [] => True | x :: _ => in_cset Space x = false end).
  { destruct Hmid as [Em|(k & ws2 & Em & Hk & _)]; rewrite Em.
    - simpl. apply identifier_head0. exact Ia.
    - inversion Hk as [|x y k' s' Hxy Hk']; subst. simpl.
      destruct x as [b0 b1 b2 b3 b4 b5 b6 b7];
        destruct b0, b1, b2, b3, b4, b5, b6, b7; vm_compute in Hxy;
        try discriminate Hxy; reflexivity. }
  assert (Halias : forall c cp,
             rest c = a ->
             rmatch G2 c cp accept =
             Some (run (pos c) (prev c) a [],
                   ("2"%string, (pos c, pos (run (pos c) (prev c) a []))) :: cp)).
  { intros c cp Hr. unfold G2. rewrite rmatch_Grp.
    apply (@rmatch_Rep_run Word 1 c a []);
      [rewrite app_nil_r; exact Hr | apply Ia
      | apply identifier_length; exact Ia | exact I | reflexivity]. }
  assert (Hopt : exists cA,
             pos cA = List.length t + List.length ws + List.length mid /\
             rest cA = a /\
             forall cp,
               rmatch (Opt (Seq (Lit (lit "AS")) spaces1)) c2 cp
                 (fun c cp' => rmatch G2 c cp' accept)
               = rmatch G2 cA cp accept).
  { destruct Hmid as [Em|(k & ws2 & Em & Hk & Hs2 & Hn2)]; rewrite Em in R2 |- *.
    - exists c2. split; [simpl; lia|]. split; [exact R2|].
      intros cp. rewrite rmatch_Opt.
      destruct (rmatch (Seq (Lit (lit "AS")) spaces1) c2 cp _) as [y|] eqn:E;
        [|reflexivity].
      exfalso.
      apply rmatch_sound in E. destruct E as (c' & cp' & Hm & _).
      apply matches_Seq_inv in Hm. destruct Hm as (cx & Hl & Hs).
      apply matches_Lit_inv in Hl. destruct Hl as (j & _ & Ej).
      apply matches_Rep_inv in Hs. destruct Hs as (sp & Hsp & Hlen & Es).
      destruct sp as [|x sp]; [simpl in Hlen; lia|].
      simpl in R2. rewrite R2, Es in Ej.
      destruct Ia as [_ Ia]. rewrite Ej in Ia.
      apply Forall_app in Ia. destruct Ia as [_ Ia].
      inversion Ia as [|? ? Hx _]; subst. inversion Hsp as [|? ? Hx' _]; subst.
      simpl in Hx'. apply word_not_space in Hx. congruence.
    - remember (run (pos c2) (prev c2) k (ws2 ++ a)) as c3 eqn:Ec3.
      remember (run (pos c3) (prev c3) ws2 a) as c4 eqn:Ec4.
      assert (R3 : rest c3 = ws2 ++ a) by (rewrite Ec3; apply run_rest).
      assert (R4 : rest c4 = a) by (rewrite Ec4; apply run_rest).
      exists c4. split.
      { rewrite Ec4, pos_run, Ec3, pos_run, P2, length_app. lia. }
      split; [exact R4|]. intros cp.
      rewrite rmatch_Opt, rmatch_Seq.
      rewrite (@rmatch_Lit_run (lit "AS") cp _ k (ws2 ++ a) c2);
        [|rewrite R2, <- app_assoc; reflexivity|exact Hk].
      rewrite <- Ec3.
      assert (Ev : rmatch spaces1 c3 cp (fun c cp' => rmatch G2 c cp' accept)
                   = rmatch G2 c4 cp accept).
      { rewrite (Halias c4 cp R4).
        apply (@rmatch_Rep_run Space 1 c3 ws2 a);
          [exact R3 | exact Hs2 | apply nonempty_length; exact Hn2
          | apply identifier_head0; exact Ia | ].
        rewrite <- Ec4. apply Halias. exact R4. }
      rewrite Ev. rewrite (Halias c4 cp R4). reflexivity. }
  destruct Hopt as (cA & PA & RA & Hopt).
  assert (E : rmatch tbl_alias_re (Cursor 0 None (t ++ ws ++ mid ++ a)) []
                accept =
              Some (run (pos cA) (prev cA) a [],
                    [("2"%string, (pos cA, pos (run (pos cA) (prev cA) a [])));
                     ("1"%string, (0, pos c1))])).
  { unfold tbl_alias_re. rewrite rmatch_Seq, rmatch_Grp.
    apply (@rmatch_Rep_run Word 1 (Cursor 0 None (t ++ ws ++ mid ++ a)) t
             (ws ++ mid ++ a));
      [reflexivity | apply It | apply identifier_length; exact It
      | apply spaces_head; assumption | ].
    cbv beta. cbn [pos prev]. rewrite <- Ec1.
    rewrite rmatch_Opt. cbn [seqs]. rewrite rmatch_Seq.
    assert (Ev : rmatch spaces1 c1 [("1"%string, (0, pos c1))]
                   (fun c' cp' =>
                      rmatch (Seq (Opt (Seq (Lit (lit "AS")) spaces1)) G2)
                        c' cp' accept)
                 = Some (run (pos cA) (prev cA) a [],
                         [("2"%string,
                           (pos cA, pos (run (pos cA) (prev cA) a [])));
                          ("1"%string, (0, pos c1))])).
    { apply (@rmatch_Rep_run Space 1 c1 ws (mid ++ a));
        [exact R1 | exact Hws | apply nonempty_length; exact Hne
        | exact Hhead | ].
      rewrite <- Ec2. rewrite rmatch_Seq. rewrite Hopt. apply Halias.
      exact RA. }
    fold G2. rewrite Ev. reflexivity. }
  unfold re_match, match_at. rewrite E.
  eexists. split; [reflexivity|]. unfold group. cbn [m_caps lookup_cap].
  simpl String.eqb. cbv iota.
  rewrite !pos_run, PA, P1. split; f_equal.
  - apply slice_prefix.
  - replace (t ++ ws ++ mid ++ a) with ((t ++ ws ++ mid) ++ a ++ [])
      by (rewrite app_nil_r, <- !app_assoc; reflexivity).
    replace (List.length t + List.length ws + List.length mid)
      with (List.length (t ++ ws ++ mid))
      by (rewrite !length_app; lia).
    apply slice_middle.
Qed.

Lemma slice_full (t : str) : slice t 0 (List.length t) = t.
Proof. rewrite slice_0. apply firstn_all. Qed.

Lemma re_split_none (r : regex) (t : str) :
  finditer r t = [] -> re_split r t = [t].
Proof. intros H. unfold re_split. rewrite H. simpl. rewrite slice_full. reflexivity. Qed.

Lemma split_on_absent (sep : ascii) (s : str) :
  ~ In sep s -> split_on sep s = [s].
Proof.
  induction s as [|c s IH]; intros H; simpl; [reflexivity|].
  destruct (c =? sep)%char eqn:E.
  - apply Ascii.eqb_eq in E. subst c. exfalso. apply H. left. reflexivity.
  - rewrite IH; [reflexivity|]. intros Hin. apply H. right. exact Hin.
Qed.

Lemma lstrip_id (s : str) :
  match s with [] => True | c :: _ => is_space c = false end -> lstrip s = s.
Proof. destruct s as [|c s]; simpl; [reflexivity|]. intros ->. reflexivity. Qed.

(** A text that starts and ends with a word character is its own strip. *)
Lemma strip_ends (x z : ascii) (s : str) :
  is_word x = true -> is_word z = true ->
  strip (x :: s ++ [z]) = x :: s ++ [z].
Proof.
  intros Hx Hz. apply word_not_space in Hx. apply word_not_space in Hz.
  unfold strip, rstrip.
  rewrite (@lstrip_id (x :: s ++ [z])) by exact Hx.
  replace (rev (x :: s ++ [z])) with (z :: rev (x :: s))
    by (change (x :: s ++ [z]) with ((x :: s) ++ [z]);
        rewrite rev_app_distr; reflexivity).
  rewrite (@lstrip_id (z :: rev (x :: s))) by exact Hz.
  change (rev (z :: rev (x :: s))) with (rev (rev (x :: s)) ++ [z]).
  rewrite rev_involutive. reflexivity.
Qed.

Lemma strip_single (x : ascii) : is_word x = true -> strip [x] = [x].
Proof.
  intros Hx. apply word_not_space in Hx. unfold strip, rstrip. simpl.
  rewrite Hx. simpl. rewrite Hx. reflexivity.
Qed.

Lemma strip_word_ends (t mid a : str) :
  identifier t -> identifier a -> strip (t ++ mid ++ a) = t ++ mid ++ a.
Proof.
  intros [Ht Wt] [Ha Wa].
  destruct t as [|x t]; [congruence|].
  destruct (exists_last Ha) as (a' & z & ->).
  inversion Wt; subst. apply Forall_app in Wa. destruct Wa as [_ Wz].
  inversion Wz; subst.
  replace ((x :: t) ++ mid ++ a' ++ [z]) with (x :: (t ++ mid ++ a') ++ [z])
    by (simpl; rewrite <- !app_assoc; reflexivity).
  apply strip_ends; assumption.
Qed.

Lemma strip_identifier (t : str) : identifier t -> strip t = t.
Proof.
  intros [Ht Wt]. destruct (exists_last Ht) as (t' & z & ->).
  apply Forall_app in Wt. destruct Wt as [Wt Wz]. inversion Wz; subst.
  destruct t' as [|x t'].
  - apply strip_single. assumption.
  - inversion Wt; subst. apply strip_ends; assumption.
Qed.

Lemma extract_tables_one_candidate (from_clause : str) :
  finditer JOIN_RE from_clause = [] -> finditer ON_RE from_clause = [] ->
  ~ In ","%char from_clause ->
  extract_tables from_clause = table_of_candidate from_clause.
Proof.
  intros Hj Ho Hc. unfold extract_tables.
  rewrite (re_split_none _ _ Hj). cbn [flat_map].
  rewrite (re_split_none _ _ Ho). cbn [hd].
  rewrite (@split_on_absent _ _ Hc). cbn [flat_map].
  rewrite !app_nil_r. reflexivity.
Qed.

Lemma table_of_candidate_groups (cand : str) (m : mobj) (t : str) (g2 : option str) :
  strip cand = cand -> identifier t ->
  re_match tbl_alias_re cand = Some m ->
  group cand m "1" = Some t -> group cand m "2" = g2 ->
  table_of_candidate cand =
  [ {| table := upper t; alias := upper (or_str g2 t) |} ].
Proof.
  intros Hs It Hm H1 H2. unfold table_of_candidate. rewrite Hs.
  destruct cand as [|c0 cs].
  - exfalso. unfold group in H1. destruct (lookup_cap "1" (m_caps m)) as [[x y]|];
      [|discriminate]. injection H1 as H1. unfold slice in H1.
    rewrite skipn_nil, firstn_nil in H1. destruct It. congruence.
  - rewrite Hm, H1, H2, (or_str_identifier [] It).
    destruct (upper t) as [|u us] eqn:Eu; [|reflexivity].
    destruct It as [Hne _]. destruct t; [congruence|discriminate].
Qed.

Lemma all_word_no_comma (s : str) :
  Forall (fun c => is_word c = true \/ is_space c = true) s -> ~ In ","%char s.
Proof.
  intros H Hin. rewrite Forall_forall in H. destruct (H _ Hin); discriminate.
Qed.

Lemma reach_run_inv (c c' : cursor) :
  reach c c' ->
  exists w, rest c = w ++ rest c' /\ c' = run (pos c) (prev c) w (rest c').
Proof.
  induction 1 as [c|p pv x rs c' H IH].
  - exists []. destruct c. split; reflexivity.
  - destruct IH as (w & Hw & Hc). simpl in *. exists (x :: w).
    split; [rewrite Hw; reflexivity|exact Hc].
Qed.

Lemma prev_run_word (w rs : str) :
  forall p pv,
    w <> [] -> Forall (fun c => is_word c = true) w ->
    word_opt (prev (run p pv w rs)) = true.
Proof.
  induction w as [|x w IH]; intros p pv Hne Hw; [congruence|].
  inversion Hw; subst. destruct w as [|y w]; simpl.
  - assumption.
  - apply (IH (S p) (Some x)); [discriminate|assumption].
Qed.

Lemma no_boundary_inside_word (w r : str) (p : nat) (pv : option ascii) :
  w <> [] -> r <> [] -> Forall (fun c => is_word c = true) (w ++ r) ->
  at_boundary (run p pv w r) = false.
Proof.
  intros Hw Hr Hall. apply Forall_app in Hall. destruct Hall as [Aw Ar].
  unfold at_boundary. rewrite run_rest, (prev_run_word r p pv Hw Aw).
  destruct r as [|x r]; [congruence|]. inversion Ar; subst. simpl.
  rewrite H1. reflexivity.
Qed.

Lemma matches_Bnd_inv (c c' : cursor) :
  matches Bnd c c' -> c' = c /\ at_boundary c = true.
Proof. intros H. inversion H; subst. auto. Qed.

Lemma ci_eq_nonempty (w s : str) : ci_eq w s -> s <> [] -> w <> [].
Proof. intros H Hs. inversion H; subst; [congruence|discriminate]. Qed.

(** In a text that is one identifier, a keyword between word boundaries is
    found only when the identifier is the keyword. *)
Lemma no_keyword_in_word (kw t : str) :
  identifier t -> kw <> [] -> ~ ci_eq t kw ->
  finditer (Seq Bnd (Seq (Lit kw) Bnd)) t = [].
Proof.
  intros [Hne Hall] Hkw Hno.
  destruct (finditer _ t) as [|m ms] eqn:E; [reflexivity|]. exfalso.
  assert (Hin : In m (finditer (Seq Bnd (Seq (Lit kw) Bnd)) t))
    by (rewrite E; left; reflexivity).
  apply finditer_from_sound in Hin.
  destruct Hin as (c0 & c' & Hr & Hm & _).
  apply matches_Seq_inv in Hm. destruct Hm as (ca & Hb & Hm).
  apply matches_Bnd_inv in Hb. destruct Hb as [-> B0].
  apply matches_Seq_inv in Hm. destruct Hm as (c1 & Hl & Hb).
  apply matches_Bnd_inv in Hb. destruct Hb as [-> B1].
  pose proof (reach_trans Hr (matches_reach Hl)) as Hr1.
  apply matches_Lit_inv in Hl. destruct Hl as (j & Hj & Ej).
  pose proof (ci_eq_nonempty Hj Hkw) as Hjne.
  apply reach_run_inv in Hr. destruct Hr as (w0 & E0 & Ec0). simpl in E0, Ec0.
  apply reach_run_inv in Hr1. destruct Hr1 as (w1 & E1 & Ec1). simpl in E1, Ec1.
  assert (Hw0 : w0 = []).
  { destruct w0 as [|x w0]; [reflexivity|]. exfalso.
    rewrite Ec0 in B0. rewrite no_boundary_inside_word in B0;
      [discriminate|discriminate| |rewrite <- E0; exact Hall].
    rewrite Ej. destruct j; [congruence|discriminate]. }
  subst w0. simpl in E0.
  assert (w1 = j).
  { rewrite E0, Ej in E1. apply app_inv_tail in E1. auto. }
  subst w1.
  assert (Hr1 : rest c1 = []).
  { destruct (rest c1) as [|x r] eqn:Er; [reflexivity|]. exfalso.
    rewrite Ec1 in B1. rewrite no_boundary_inside_word in B1;
      [discriminate|exact Hjne|discriminate|rewrite <- E1; exact Hall]. }
  rewrite Hr1, app_nil_r in E1. subst j. contradiction.
Qed.

Lemma identifier_no_comma (t : str) : identifier t -> ~ In ","%char t.
Proof.
  intros [_ H]. apply all_word_no_comma.
  eapply Forall_impl; [|exact H]. auto.
Qed.

(** X12. The alias defaults to the table name: for a FROM clause that is
    one identifier, other than the keywords JOIN and ON, the resolver
    yields exactly one reference, its table and its alias both the
    identifier in upper case. *)
Theorem single_table_default_alias (t : str) :
  identifier t -> ~ ci_eq t (lit "JOIN") -> ~ ci_eq t (lit "ON") ->
  extract_tables t = [ {| table := upper t; alias := upper t |} ].
Proof.
  intros It Hj Ho.
  rewrite extract_tables_one_candidate.
  - destruct (tbl_alias_single It) as (m & Hm & H1 & H2).
    apply (table_of_candidate_groups (strip_identifier It) It Hm H1 H2).
  - apply (no_keyword_in_word It); [discriminate|exact Hj].
  - apply (no_keyword_in_word It); [discriminate|exact Ho].
  - apply identifier_no_comma. exact It.
Qed.

Lemma single_table_default_alias_witness :
  identifier (lit "vbrp") /\
  ~ ci_eq (lit "vbrp") (lit "JOIN") /\ ~ ci_eq (lit "vbrp") (lit "ON") /\
  extract_tables (lit "vbrp") = [tref "VBRP" "VBRP"].
Proof.
  assert (I : identifier (lit "vbrp"))
    by (split; [discriminate|repeat constructor]).
  assert (Hj : ~ ci_eq (lit "vbrp") (lit "JOIN"))
    by (intros H; inversion H as [|? ? ? ? Hc _]; vm_compute in Hc;
        discriminate).
  assert (Ho : ~ ci_eq (lit "vbrp") (lit "ON"))
    by (intros H; inversion H as [|? ? ? ? Hc _]; vm_compute in Hc;
        discriminate).
  split; [exact I|]. split; [exact Hj|]. split; [exact Ho|].
  exact (single_table_default_alias I Hj Ho).
Defined.

Lemma is_word_lower (c : ascii) : is_word (lower_char c) = is_word c.
Proof.
  destruct c as [b0 b1 b2 b3 b4 b5 b6 b7];
    destruct b0, b1, b2, b3, b4, b5, b6, b7; reflexivity.
Qed.

Lemma ci_eqb_word (a x : ascii) : ci_eqb a x = true -> is_word x = is_word a.
Proof.
  unfold ci_eqb. intros H. apply Ascii.eqb_eq in H.
  rewrite <- (is_word_lower x), <- H. apply is_word_lower.
Qed.

Lemma ci_eq_words (w s : str) :
  ci_eq w s -> Forall (fun c => is_word c = true) s ->
  Forall (fun c => is_word c = true) w.
Proof.
  induction 1 as [|x a w s Hx H IH]; intros Hs; constructor;
    inversion Hs; subst.
  - rewrite (@ci_eqb_word _ _ Hx). assumption.
  - apply IH. assumption.
Qed.

(** X13. An explicit alias: for a FROM clause made of a table identifier,
    whitespace, optionally AS (in any letter case) and whitespace, and an
    alias identifier, in which the resolver finds no JOIN and no ON
    keyword, the resolver yields exactly one reference, the table and the
    alias in upper case. *)
Theorem table_with_alias (t ws mid a : str) :
  identifier t -> identifier a -> all_space ws -> ws <> [] ->
  (mid = [] \/
   exists k ws2, mid = k ++ ws2 /\ ci_eq k (lit "AS") /\
                 all_space ws2 /\ ws2 <> []) ->
  finditer JOIN_RE (t ++ ws ++ mid ++ a) = [] ->
  finditer ON_RE (t ++ ws ++ mid ++ a) = [] ->
  extract_tables (t ++ ws ++ mid ++ a) =
  [ {| table := upper t; alias := upper a |} ].
Proof.
  intros It Ia Hws Hne Hmid Hj Ho.
  rewrite (@extract_tables_one_candidate _ Hj Ho).
  - destruct (tbl_alias_pair It Ia Hws Hne Hmid) as (m & Hm & H1 & H2).
    assert (Hs : strip (t ++ ws ++ mid ++ a) = t ++ ws ++ mid ++ a).
    { replace (t ++ ws ++ mid ++ a) with (t ++ (ws ++ mid) ++ a)
        by (rewrite <- !app_assoc; reflexivity).
      apply strip_word_ends; assumption. }
    rewrite (table_of_candidate_groups Hs It Hm H1 H2).
    rewrite (or_str_identifier t Ia). reflexivity.
  - apply all_word_no_comma. destruct It as [_ Wt]. destruct Ia as [_ Wa].
    repeat (apply Forall_app; split).
    + eapply Forall_impl; [|exact Wt]. auto.
    + eapply Forall_impl; [|exact Hws]. auto.
    + destruct Hmid as [->|(k & ws2 & -> & Hk & Hs2 & _)]; [constructor|].
      apply Forall_app; split.
      * eapply Forall_impl; [|apply (ci_eq_words Hk); repeat constructor].
        auto.
      * eapply Forall_impl; [|exact Hs2]. auto.
    + eapply Forall_impl; [|exact Wa]. auto.
Qed.

Lemma table_with_alias_witness :
  extract_tables (lit "vbrk" ++ lit " " ++ (lit "as" ++ lit "  ") ++ lit "a") =
  [tref "VBRK" "A"] /\
  extract_tables (lit "vbrp" ++ lit " " ++ [] ++ lit "b") = [tref "VBRP" "B"].
Proof.
  assert (Iv : identifier (lit "vbrk"))
    by (split; [discriminate|repeat constructor]).
  assert (Ip : identifier (lit "vbrp"))
    by (split; [discriminate|repeat constructor]).
  assert (Ia : identifier (lit "a"))
    by (split; [discriminate|repeat constructor]).
  assert (Ib : identifier (lit "b"))
    by (split; [discriminate|repeat constructor]).
  assert (Hs : all_space (lit " ")) by (repeat constructor).
  split.
  - apply (@table_with_alias (lit "vbrk") (lit " ") (lit "as" ++ lit "  ")
             (lit "a") Iv Ia Hs); [discriminate| |reflexivity|reflexivity].
    right. exists (lit "as"), (lit "  ").
    split; [reflexivity|]. split; [repeat constructor|].
    split; [repeat constructor|discriminate].
  - apply (@table_with_alias (lit "vbrp") (lit " ") [] (lit "b") Ip Ib Hs);
      [discriminate|left; reflexivity|reflexivity|reflexivity].
Defined.

(** ** The auditor *)

Lemma forallb_false_exists {A : Type} (f : A -> bool) (l : list A) :
  forallb f l = false -> exists x, In x l /\ f x = false.
Proof.
  induction l as [|x l IH]; simpl; [discriminate|].
  destruct (f x) eqn:E; simpl.
  - intros H. destruct (IH H) as (y & Hy & Hf). exists y. auto.
  - intros _. exists x. auto.
Qed.

Lemma draft_filter_missing_true (stmt : str) (tbls : list TableRef) :
  draft_filter_missing stmt tbls = true <->
  exists t, In t tbls /\ is_vbrk_vbrp t = true /\
            _has_draft_check stmt (alias t) = false.
Proof.
  split.
  - intros H. unfold draft_filter_missing in H.
    destruct (filter is_vbrk_vbrp tbls) as [|t0 ts] eqn:E; [discriminate|].
    rewrite <- E in H.
    destruct (forallb (fun t => _has_draft_check stmt (alias t))
                (filter is_vbrk_vbrp tbls)) eqn:F; [discriminate|].
    apply forallb_false_exists in F. destruct F as (t & Ht & Hf).
    apply filter_In in Ht. destruct Ht as [Ht Hv]. exists t. auto.
  - intros (t & Ht & Hv & Hf).
    destruct (draft_filter_missing stmt tbls) eqn:E; [reflexivity|].
    rewrite draft_filter_missing_false in E. rewrite (E t Ht Hv) in Hf.
    discriminate.
Qed.

Lemma has_draft_check_false (stmt als : str) :
  _has_draft_check stmt als = false <-> ~ carries_draft_predicate stmt als.
Proof.
  rewrite <- has_draft_check_carries.
  destruct (_has_draft_check stmt als); split; congruence.
Qed.

(** X14. The auditor reports a violation exactly when some table reference
    on VBRK or VBRP has an alias for which the statement carries no draft
    predicate; references to other tables play no part, and without a
    VBRK/VBRP reference there is no violation. *)
Theorem violation_iff_alias_unfiltered (stmt : str) (tbls : list TableRef) :
  (draft_filter_missing stmt tbls = true <->
   exists t, In t tbls /\ is_vbrk_vbrp t = true /\
             ~ carries_draft_predicate stmt (alias t)) /\
  draft_filter_missing stmt tbls =
  draft_filter_missing stmt (filter is_vbrk_vbrp tbls) /\
  (filter is_vbrk_vbrp tbls = [] -> draft_filter_missing stmt tbls = false).
Proof.
  split; [|split].
  - rewrite draft_filter_missing_true. split.
    + intros (t & Ht & Hv & Hf). exists t. split; [exact Ht|].
      split; [exact Hv|]. apply has_draft_check_false. exact Hf.
    + intros (t & Ht & Hv & Hf). exists t. split; [exact Ht|].
      split; [exact Hv|]. apply has_draft_check_false. exact Hf.
  - unfold draft_filter_missing.
    rewrite (forallb_filter_id is_vbrk_vbrp (filter is_vbrk_vbrp tbls))
      by apply forallb_filter.
    reflexivity.
  - intros H. unfold draft_filter_missing. rewrite H. reflexivity.
Qed.

Lemma violation_iff_alias_unfiltered_witness :
  draft_filter_missing (lit "SELECT * FROM mara AS m JOIN vbrp AS b INTO @x")
    [tref "MARA" "M"; tref "VBRP" "B"] = true /\
  draft_filter_missing (lit "SELECT * FROM mara AS m INTO @x")
    [tref "MARA" "M"] = false.
Proof.
  split.
  - apply (proj1 (violation_iff_alias_unfiltered _ _)).
    exists (tref "VBRP" "B"). split; [right; left; reflexivity|].
    split; [reflexivity|]. apply has_draft_check_false.
    vm_compute. reflexivity.
  - apply (proj2 (proj2 (violation_iff_alias_unfiltered _ _))). reflexivity.
Defined.

Lemma lower_upper_char (c : ascii) : lower_char (upper_char c) = lower_char c.
Proof.
  destruct c as [b0 b1 b2 b3 b4 b5 b6 b7];
    destruct b0, b1, b2, b3, b4, b5, b6, b7; reflexivity.
Qed.

Lemma carries_alias_case (stmt a b : str) :
  map lower_char a = map lower_char b ->
  carries_draft_predicate stmt a -> carries_draft_predicate stmt b.
Proof.
  intros E (pre & x & w1 & w2 & d & w3 & w4 & l & post & Es & Hx & H).
  exists pre, x, w1, w2, d, w3, w4, l, post.
  split; [exact Es|]. split; [|exact H].
  apply (@ci_eq_lower _ _ _ E Hx).
Qed.

Lemma carries_in_larger_text (stmt pre post als : str) :
  carries_draft_predicate stmt als ->
  carries_draft_predicate (pre ++ stmt ++ post) als.
Proof.
  intros (p & x & w1 & w2 & d & w3 & w4 & l & q & Es & H).
  exists (pre ++ p), x, w1, w2, d, w3, w4, l, (q ++ post).
  split; [|exact H]. rewrite Es, <- !app_assoc. reflexivity.
Qed.

Lemma bool_eq_iff (a b : bool) : (a = true <-> b = true) -> a = b.
Proof. destruct a, b; intros [H1 H2]; auto; try (symmetry; auto). Qed.

(** X15. The draft check is purely textual: it does not depend on the
    letter case of the alias, and when it holds for a text it holds for
    every text that contains that text, whatever stands around it. *)
Theorem draft_check_textual (stmt als : str) :
  _has_draft_check stmt (upper als) = _has_draft_check stmt als /\
  (forall pre post,
      _has_draft_check stmt als = true ->
      _has_draft_check (pre ++ stmt ++ post) als = true).
Proof.
  split.
  - apply bool_eq_iff. rewrite !has_draft_check_carries.
    assert (E : map lower_char (upper als) = map lower_char als).
    { unfold upper. rewrite map_map. apply map_ext. apply lower_upper_char. }
    split; apply carries_alias_case; [exact E|symmetry; exact E].
  - intros pre post H. apply has_draft_check_carries.
    apply carries_in_larger_text. apply has_draft_check_carries. exact H.
Qed.

Lemma draft_check_textual_witness :
  _has_draft_check (lit "b~draft = ''") (lit "B") = true /\
  _has_draft_check (lit "* " ++ lit "b~draft = ''" ++ lit " in a comment")
    (lit "B") = true.
Proof.
  assert (H : _has_draft_check (lit "b~draft = ''") (lit "B") = true)
    by (vm_compute; reflexivity).
  split; [exact H|].
  exact (proj2 (draft_check_textual (lit "b~draft = ''") (lit "B"))
           (lit "* ") (lit " in a comment") H).
Defined.

Lemma no_keyword_in_spaces (kw t : str) :
  kw <> [] -> Forall (fun c => is_word c = true) kw -> all_space t ->
  finditer (Seq Bnd (Seq (Lit kw) Bnd)) t = [].
Proof.
  intros Hkw Wkw Ht.
  destruct (finditer _ t) as [|m ms] eqn:E; [reflexivity|]. exfalso.
  assert (Hin : In m (finditer (Seq Bnd (Seq (Lit kw) Bnd)) t))
    by (rewrite E; left; reflexivity).
  apply finditer_from_sound in Hin.
  destruct Hin as (c0 & c' & Hr & Hm & _).
  apply matches_Seq_inv in Hm. destruct Hm as (ca & Hb & Hm).
  apply matches_Bnd_inv in Hb. destruct Hb as [-> _].
  apply matches_Seq_inv in Hm. destruct Hm as (c1 & Hl & _).
  apply matches_Lit_inv in Hl. destruct Hl as (j & Hj & Ej).
  pose proof (ci_eq_words Hj Wkw) as Wj.
  pose proof (ci_eq_nonempty Hj Hkw) as Hjne.
  apply reach_inv in Hr. destruct Hr as (w & Ew). simpl in Ew.
  destruct j as [|x j]; [congruence|].
  rewrite Ew, Ej in Ht. apply Forall_app in Ht. destruct Ht as [_ Ht].
  inversion Ht as [|? ? Hx _]; subst. inversion Wj as [|? ? Hx' _]; subst.
  apply word_not_space in Hx'. congruence.
Qed.

Lemma lstrip_all_space (s : str) : all_space s -> lstrip s = [].
Proof.
  induction 1 as [|c s Hc H IH]; simpl; [reflexivity|]. rewrite Hc. exact IH.
Qed.

(** X16. A FROM clause that is empty or holds only whitespace resolves to
    no table reference. *)
Theorem blank_from_clause_no_tables (from_clause : str) :
  all_space from_clause -> extract_tables from_clause = [].
Proof.
  intros H. rewrite extract_tables_one_candidate.
  - unfold table_of_candidate, strip, rstrip.
    rewrite (lstrip_all_space H). reflexivity.
  - apply no_keyword_in_spaces; [discriminate|repeat constructor|exact H].
  - apply no_keyword_in_spaces; [discriminate|repeat constructor|exact H].
  - apply all_word_no_comma. eapply Forall_impl; [|exact H]. auto.
Qed.

Lemma blank_from_clause_no_tables_witness :
  all_space (lit "   ") /\ extract_tables (lit "   ") = [].
Proof.
  assert (H : all_space (lit "   ")) by (repeat constructor).
  split; [exact H|]. exact (blank_from_clause_no_tables H).
Defined.
